(** * File Collector: the selection tree of [src/extension.ts]

    A shallow embedding of the [FileItem] class and of the
    [FileCollectorProvider] methods, followed by the properties of the
    selection state that the specification lists.

    Conventions of the embedding:
    - a normalised absolute path is the list of its segments, so that
      [path.join(dir, name)] is [dir ++ [name]];
    - the disk is a finite tree of files and directories; a node can be
      unreadable, in which case [readdir] or [readFile] rejects;
    - [FileItem] objects live in a heap indexed by references, because the
      provider stores them in its [Map] and hands the same objects to the
      tree view, which passes them back to [toggleCheck];
    - the [Map] is an association list in insertion order;
    - every method is a computation in a small monad that threads the
      provider state, records the calls made to the host, and either
      returns a value or throws.  The calls to [console.log] are not
      recorded. *)

From stdpp Require Import base list strings.
From Stdlib Require Import Lia.

Set Warnings "-register-all".

(** ** Paths *)

Definition path := list string.

Module Path.

(** [path.join(dirPath, name)] for a normalised [dirPath] and an entry
    name. *)
Definition join (dirPath : path) (name : string) : path := dirPath ++ [name].

(** [path.relative(from, to)]: drop the common prefix, climb out of what
    is left of [from], descend into what is left of [to]. *)
Fixpoint relative (from to : path) : path :=
  match from, to with
  | f :: from', t :: to' =>
      if decide (f = t) then relative from' to'
      else ((λ _, "..") <$> from) ++ to
  | _, _ => ((λ _, "..") <$> from) ++ to
  end.

Definition show_relative (p : path) : string := String.concat "/" p.

Definition show (p : path) : string := "/" +:+ String.concat "/" p.

End Path.

(** ** The disk *)

(** A file with its text, or a directory with its entries in the order
    [readdir] reports them.  An unreadable node keeps its content but every
    attempt to read it fails. *)
Inductive FsTree : Type :=
| FsFile (readable : bool) (content : string)
| FsDir (readable : bool) (entries : list (string * FsTree)).

(** [Dirent.isDirectory()] *)
Definition isDirectory (node : FsTree) : bool :=
  match node with
  | FsDir _ _ => true
  | FsFile _ _ => false
  end.

Fixpoint child (name : string) (entries : list (string * FsTree)) : option FsTree :=
  match entries with
  | [] => None
  | (n, t) :: rest => if decide (n = name) then Some t else child name rest
  end.

(** The node found at a path, starting from the root of the disk. *)
Fixpoint resolve (disk : FsTree) (p : path) : option FsTree :=
  match p with
  | [] => Some disk
  | name :: rest =>
      match disk with
      | FsDir _ entries =>
          match child name entries with
          | Some t => resolve t rest
          | None => None
          end
      | FsFile _ _ => None
      end
  end.

(** ** Errors *)

Inductive errno := ENOENT | EACCES | ENOTDIR | EISDIR.

(** A system error of [fs] either names the path it was raised for, as
    the errors of [open] and [scandir] do, or names none, as the error of
    [read] on a directory does. *)
Inductive Error : Type :=
| FsError (code : errno) (syscall : string) (at_path : path)
| FsErrorNoPath (code : errno) (syscall : string)
| TypeError (msg : string).

Definition errno_text (c : errno) : string :=
  match c with
  | ENOENT => "ENOENT: no such file or directory"
  | EACCES => "EACCES: permission denied"
  | ENOTDIR => "ENOTDIR: not a directory"
  | EISDIR => "EISDIR: illegal operation on a directory"
  end.

(** [error.message] *)
Definition message (e : Error) : string :=
  match e with
  | FsError c call p => errno_text c +:+ ", " +:+ call +:+ " '" +:+ Path.show p +:+ "'"
  | FsErrorNoPath c call => errno_text c +:+ ", " +:+ call
  | TypeError msg => msg
  end.

(** What [fs.promises.readdir(p, {withFileTypes: true})] settles to when
    [node] is what the disk has at [p]. *)
Definition readdir_node (node : option FsTree) (p : path)
  : list (string * FsTree) + Error :=
  match node with
  | None => inr (FsError ENOENT "scandir" p)
  | Some (FsFile _ _) => inr (FsError ENOTDIR "scandir" p)
  | Some (FsDir false _) => inr (FsError EACCES "scandir" p)
  | Some (FsDir true entries) => inl entries
  end.

(** What [fs.promises.readFile(p, 'utf8')] settles to.  A directory can
    be opened, and it is the read that fails, with an error that carries no
    path. *)
Definition readFile_node (node : option FsTree) (p : path) : string + Error :=
  match node with
  | None => inr (FsError ENOENT "open" p)
  | Some (FsDir _ _) => inr (FsErrorNoPath EISDIR "read")
  | Some (FsFile false _) => inr (FsError EACCES "open" p)
  | Some (FsFile true content) => inl content
  end.

(** ** Tree items *)

Inductive TreeItemCollapsibleState := None_ | Collapsed | Expanded.
Inductive TreeItemCheckboxState := Unchecked | Checked.

#[global] Instance TreeItemCollapsibleState_eq_dec : EqDecision TreeItemCollapsibleState.
Proof. solve_decision. Defined.

Definition checkbox_of (checked : bool) : TreeItemCheckboxState :=
  if checked then Checked else Unchecked.

Record FileItem : Type := mkFileItem {
  label : string;
  collapsibleState : TreeItemCollapsibleState;
  filePath : path;
  isChecked : bool;
  contextValue : string;
  checkboxState : TreeItemCheckboxState
}.

(** [new FileItem(label, collapsibleState, filePath, isChecked)] *)
Definition newFileItem (label : string) (collapsibleState : TreeItemCollapsibleState)
    (filePath : path) (isChecked : bool) : FileItem :=
  {| label := label;
     collapsibleState := collapsibleState;
     filePath := filePath;
     isChecked := isChecked;
     contextValue := "fileItem";
     checkboxState := checkbox_of isChecked |}.

(** The effect of [item.updateCheckState(checked)] on the object. *)
Definition setChecked (checked : bool) (item : FileItem) : FileItem :=
  {| label := label item;
     collapsibleState := collapsibleState item;
     filePath := filePath item;
     isChecked := checked;
     contextValue := contextValue item;
     checkboxState := checkbox_of checked |}.

(** ** The provider's [Map<string, FileItem>] *)

Abbreviation ref := nat (only parsing).

Module JsMap.

Definition t := list (path * ref).

(** [map.get(k)] *)
Fixpoint get (k : path) (m : t) : option ref :=
  match m with
  | [] => None
  | (k', v) :: rest => if decide (k' = k) then Some v else get k rest
  end.

(** [map.set(k, v)]: a known key keeps its place in the iteration order,
    a new key goes last. *)
Fixpoint set (k : path) (v : ref) (m : t) : t :=
  match m with
  | [] => [(k, v)]
  | (k', v') :: rest =>
      if decide (k' = k) then (k, v) :: rest else (k', v') :: set k v rest
  end.

Definition keys (m : t) : list path := fst <$> m.
Definition values (m : t) : list ref := snd <$> m.

End JsMap.

(** ** Provider state and the calls to the host *)

Record State : Type := mkState {
  heap : list FileItem;
  items : JsMap.t;
  allChecked : bool;
  workspaceRoot : option path
}.

(** [new FileCollectorProvider(rootPath)] *)
Definition newProvider (rootPath : option path) : State :=
  {| heap := []; items := []; allChecked := false; workspaceRoot := rootPath |}.

Inductive Effect : Type :=
| Refresh
| ReadDir (p : path)
| ReadFile (p : path)
| WriteFile (p : path) (data : string)
| ShowInputBox
| ShowInformationMessage (msg : string)
| ShowWarningMessage (msg : string)
| ShowErrorMessage (msg : string)
| OpenTextDocument (p : path)
| ShowTextDocument.

(** One run of a method: how it completed, the state it left, the host
    calls it made in order, and the rejections of promises that were
    started but never awaited. *)
Record Run (A : Type) : Type := mkRun {
  outcome : A + Error;
  final : State;
  trace : list Effect;
  unhandled : list Error
}.
Arguments mkRun {A} _ _ _ _.
Arguments outcome {A} _.
Arguments final {A} _.
Arguments trace {A} _.
Arguments unhandled {A} _.

Definition Js (A : Type) : Type := State → Run A.

#[global] Instance Js_ret : MRet Js := λ A (a : A) s, mkRun (inl a) s [] [].

#[global] Instance Js_bind : MBind Js := λ A B (f : A → Js B) (m : Js A) s,
  let r := m s in
  match outcome r with
  | inl a =>
      let r' := f a (final r) in
      mkRun (outcome r') (final r') (trace r ++ trace r') (unhandled r ++ unhandled r')
  | inr e => mkRun (inr e) (final r) (trace r) (unhandled r)
  end.

Definition throw {A} (e : Error) : Js A := λ s, mkRun (inr e) s [] [].

Definition emit (e : Effect) : Js unit := λ s, mkRun (inl tt) s [e] [].
Definition get_state : Js State := λ s, mkRun (inl s) s [] [].
Definition modify (f : State → State) : Js unit := λ s, mkRun (inl tt) (f s) [] [].

(** [await p] of a promise that settles to [r]. *)
Definition settle {A} (r : A + Error) : Js A :=
  match r with
  | inl a => mret a
  | inr e => throw e
  end.

(** [try { m } catch (error) { h error }] *)
Definition try_catch {A} (m : Js A) (h : Error → Js A) : Js A := λ s,
  let r := m s in
  match outcome r with
  | inl a => r
  | inr e =>
      let r' := h e (final r) in
      mkRun (outcome r') (final r') (trace r ++ trace r') (unhandled r ++ unhandled r')
  end.

(** Calling an [async] function without awaiting or returning its promise:
    the work is done, the caller goes on whatever the promise settles to,
    and a rejection is left unhandled.  The detached work is sequenced
    right here, which is the single-flight reading of the event loop: no
    other method of the provider runs in between. *)
Definition detach {A} (m : Js A) : Js unit := λ s,
  let r := m s in
  mkRun (inl tt) (final r) (trace r)
    (unhandled r ++ match outcome r with inl _ => [] | inr e => [e] end).

(** A reference is an index into the heap.  The program only ever holds
    references to objects it has created; reading through any other
    reference throws in the model. *)
Definition deref (item : ref) : Js FileItem := λ s,
  match heap s !! item with
  | Some it => mkRun (inl it) s [] []
  | None => mkRun (inr (TypeError "dangling reference")) s [] []
  end.

(** [new FileItem(...)]: the object goes to a fresh cell of the heap. *)
Definition alloc (it : FileItem) : Js ref := λ s,
  mkRun (inl (length (heap s)))
    {| heap := heap s ++ [it]; items := items s;
       allChecked := allChecked s; workspaceRoot := workspaceRoot s |} [] [].

(** ** [FileItem.updateCheckState] *)

Definition updateCheckState (item : ref) (checked : bool) : Js unit :=
  modify (λ s,
    {| heap := alter (setChecked checked) item (heap s); items := items s;
       allChecked := allChecked s; workspaceRoot := workspaceRoot s |}).

(** ** [FileCollectorProvider] *)

(** [this.items.set(filePath, item)] *)
Definition items_set (filePath : path) (item : ref) : Js unit :=
  modify (λ s,
    {| heap := heap s; items := JsMap.set filePath item (items s);
       allChecked := allChecked s; workspaceRoot := workspaceRoot s |}).

(** [this.items.get(filePath)?.isChecked ?? false] *)
Definition knownChecked (s : State) (filePath : path) : bool :=
  match JsMap.get filePath (items s) with
  | Some item =>
      match heap s !! item with
      | Some it => isChecked it
      | None => false
      end
  | None => false
  end.

Definition refresh : Js unit := emit Refresh.

(** [saveState] copies the checked flags into a record that it only
    logs. *)
Definition saveState : Js unit := mret tt.

Fixpoint forEach {A} (l : list A) (body : A → Js unit) : Js unit :=
  match l with
  | [] => mret tt
  | x :: rest => body x;; forEach rest body
  end.

Definition toggleAllFiles : Js unit :=
  modify (λ s,
    {| heap := heap s; items := items s;
       allChecked := negb (allChecked s); workspaceRoot := workspaceRoot s |});;
  s ← get_state;
  forEach (items s) (λ kv, updateCheckState kv.2 (allChecked s));;
  refresh;;
  emit (ShowInformationMessage
          (if allChecked s then "All files selected" else "All files deselected")).

Definition ignored_name (name : string) : bool :=
  bool_decide (name = "node_modules") || bool_decide (name = ".git").

(** The loop of [getFilesInDirectory]; [acc] is the local array [items]. *)
Fixpoint getFilesInDirectory_loop (dirPath : path)
    (entries : list (string * FsTree)) (acc : list ref) : Js (list ref) :=
  match entries with
  | [] => mret acc
  | (name, node) :: rest =>
      let filePath := Path.join dirPath name in
      if isDirectory node && ignored_name name then
        getFilesInDirectory_loop dirPath rest acc
      else if isDirectory node then
        s ← get_state;
        item ← alloc (newFileItem name Collapsed filePath (knownChecked s filePath));
        items_set filePath item;;
        getFilesInDirectory_loop dirPath rest (acc ++ [item])
      else
        s ← get_state;
        item ← alloc (newFileItem name None_ filePath (knownChecked s filePath));
        items_set filePath item;;
        getFilesInDirectory_loop dirPath rest (acc ++ [item])
  end.

Definition getFilesInDirectory (disk : FsTree) (dirPath : path) : Js (list ref) :=
  emit (ReadDir dirPath);;
  entries ← settle (readdir_node (resolve disk dirPath) dirPath);
  getFilesInDirectory_loop dirPath entries [].

Definition getChildren (disk : FsTree) (element : option ref) : Js (list ref) :=
  s ← get_state;
  match workspaceRoot s with
  | None => mret []
  | Some root =>
      match element with
      | Some item => it ← deref item; getFilesInDirectory disk (filePath it)
      | None => getFilesInDirectory disk root
      end
  end.

(** [toggleDirectoryChildren(dirPath, checked)], where [node] is what the
    disk has at [dirPath]: the recursive call on
    [path.join(dirPath, entry.name)] reads the node of that entry. *)
Fixpoint toggleDirectoryChildren (node : FsTree) (dirPath : path) (checked : bool)
    {struct node} : Js unit :=
  emit (ReadDir dirPath);;
  match node with
  | FsDir true entries =>
      (fix loop (entries : list (string * FsTree)) : Js unit :=
         match entries with
         | [] => mret tt
         | (name, sub) :: rest =>
             if ignored_name name then loop rest
             else
               let filePath := Path.join dirPath name in
               s ← get_state;
               match JsMap.get filePath (items s) with
               | Some item => updateCheckState item checked
               | None => mret tt
               end;;
               (if isDirectory sub
                then toggleDirectoryChildren sub filePath checked
                else mret tt);;
               loop rest
         end) entries
  | _ =>
      match readdir_node (Some node) dirPath with
      | inr e => throw e
      | inl _ => mret tt
      end
  end.

(** The loop of [toggleDirectoryChildren] over the entries of [dirPath]. *)
Definition toggleEntries (dirPath : path) (checked : bool)
  : list (string * FsTree) → Js unit :=
  fix loop (entries : list (string * FsTree)) : Js unit :=
    match entries with
    | [] => mret tt
    | (name, sub) :: rest =>
        if ignored_name name then loop rest
        else
          let filePath := Path.join dirPath name in
          s ← get_state;
          match JsMap.get filePath (items s) with
          | Some item => updateCheckState item checked
          | None => mret tt
          end;;
          (if isDirectory sub
           then toggleDirectoryChildren sub filePath checked
           else mret tt);;
          loop rest
    end.

(** The call from outside the recursion: the node is looked up on the
    disk. *)
Definition toggleDirectoryChildrenAt (disk : FsTree) (dirPath : path) (checked : bool)
  : Js unit :=
  match resolve disk dirPath with
  | Some node => toggleDirectoryChildren node dirPath checked
  | None => emit (ReadDir dirPath);; settle (readdir_node None dirPath);; mret tt
  end.

Definition toggleCheck (disk : FsTree) (item : ref) : Js unit :=
  it ← deref item;
  let newState := negb (isChecked it) in
  updateCheckState item newState;;
  refresh;;
  saveState;;
  if decide (collapsibleState it ≠ None_)
  then detach (toggleDirectoryChildrenAt disk (filePath it) newState)
  else mret tt.

(** The loop of [getCheckedFiles] over the map, in iteration order. *)
Fixpoint getCheckedFiles_loop (h : list FileItem) (m : JsMap.t) : list path :=
  match m with
  | [] => []
  | (p, item) :: rest =>
      match h !! item with
      | Some it =>
          if isChecked it && bool_decide (collapsibleState it = None_)
          then p :: getCheckedFiles_loop h rest
          else getCheckedFiles_loop h rest
      | None => getCheckedFiles_loop h rest
      end
  end.

Definition getCheckedFiles : Js (list path) :=
  s ← get_state; mret (getCheckedFiles_loop (heap s) (items s)).

(** ** [generateFile] *)

Definition LF : string := String (Ascii.ascii_of_nat 10) "".

(** What the user and the host answer during one [generateFile]: the text
    of the input box ([None] when dismissed), what [writeFile] settles to,
    and the button picked on the final message. *)
Record Ui : Type := mkUi {
  inputBox : option string;
  writeFile_result : unit + Error;
  informationAction : option string
}.

(** The three [output += ...] of one iteration. *)
Definition block (root file : path) (content : string) : string :=
  ("// File: " +:+ Path.show_relative (Path.relative root file) +:+ LF)
  +:+ content +:+ (LF +:+ LF).

Fixpoint readFiles (disk : FsTree) (root : path) (files : list path)
    (output : string) : Js string :=
  match files with
  | [] => mret output
  | file :: rest =>
      emit (ReadFile file);;
      content ← settle (readFile_node (resolve disk file) file);
      let output := output +:+ ("// File: " +:+ Path.show_relative (Path.relative root file) +:+ LF) in
      let output := output +:+ content in
      let output := output +:+ (LF +:+ LF) in
      readFiles disk root rest output
  end.

(** [this.workspaceRoot!] handed to [path.join] or [path.relative]. *)
Definition workspaceRoot_bang : Js path :=
  s ← get_state;
  match workspaceRoot s with
  | Some root => mret root
  | None => throw (TypeError "The 'path' argument must be of type string. Received undefined")
  end.

Definition generateFile (disk : FsTree) (ui : Ui) : Js unit :=
  checkedFiles ← getCheckedFiles;
  if bool_decide (length checkedFiles = 0) then
    emit (ShowWarningMessage "No files selected!")
  else
    emit ShowInputBox;;
    match inputBox ui with
    | None | Some "" => mret tt
    | Some fileName =>
        root ← workspaceRoot_bang;
        let outputPath := Path.join root (fileName +:+ ".txt") in
        try_catch
          (output ← readFiles disk root checkedFiles "";
           emit (WriteFile outputPath output);;
           settle (writeFile_result ui);;
           emit (ShowInformationMessage ("Generated file: " +:+ fileName +:+ ".txt"));;
           if decide (informationAction ui = Some "Open File")
           then emit (OpenTextDocument outputPath);; emit ShowTextDocument
           else mret tt)
          (λ error,
             emit (ShowErrorMessage ("Error generating file: " +:+ message error)))
    end.

(** * Vocabulary of the properties *)

(** Entries on disk below a directory, reached through names that the
    walk does not skip: [Under node dirPath p sub] says that the node [sub]
    sits at path [p] somewhere below [node], which sits at [dirPath]. *)
Inductive Under : FsTree → path → path → FsTree → Prop :=
| Under_entry r entries dirPath name sub :
    (name, sub) ∈ entries →
    ignored_name name = false →
    Under (FsDir r entries) dirPath (Path.join dirPath name) sub
| Under_deeper r entries dirPath name t p sub :
    (name, t) ∈ entries →
    ignored_name name = false →
    Under t (Path.join dirPath name) p sub →
    Under (FsDir r entries) dirPath p sub.

(** The state with another heap. *)
Definition with_heap (s : State) (h : list FileItem) : State :=
  {| heap := h; items := items s;
     allChecked := allChecked s; workspaceRoot := workspaceRoot s |}.

(** [updateCheckState] applied to each reference of [T] in turn. *)
Definition mark (checked : bool) (T : list ref) (h : list FileItem) : list FileItem :=
  foldl (λ h i, alter (setChecked checked) i h) h T.

(** What one run of the walk does to the state.  The map, the flag and the
    root are left alone; on the heap the flag is set on the objects that
    the map holds for some of the entries below, and for all of them when
    the walk completes.  Nothing is ever left as an unhandled rejection
    inside the walk, because every recursive call is awaited. *)
Definition walk_post (node_entries : path → FsTree → Prop)
    (checked : bool) (s : State) (r : Run unit) : Prop :=
  ∃ T,
    final r = with_heap s (mark checked T (heap s)) ∧
    unhandled r = [] ∧
    (∀ i, i ∈ T → ∃ p sub, node_entries p sub ∧ JsMap.get p (items s) = Some i) ∧
    (outcome r = inl tt →
     ∀ p sub i, node_entries p sub → JsMap.get p (items s) = Some i → i ∈ T).

(** Entries reached from a list of directory entries. *)
Definition UnderEntries (entries : list (string * FsTree)) (dirPath : path)
    (p : path) (sub : FsTree) : Prop :=
  ∃ name t, (name, t) ∈ entries ∧ ignored_name name = false ∧
    ((p = Path.join dirPath name ∧ sub = t) ∨ Under t (Path.join dirPath name) p sub).

(** No reference of the map dangles. *)
Definition refs_valid (s : State) : Prop :=
  ∀ p i, (p, i) ∈ items s → i < length (heap s).

(** The entries that [getFilesInDirectory] does not skip, and the kind it
    gives to the item of an entry. *)
Definition listed (e : string * FsTree) : bool :=
  negb (isDirectory e.2 && ignored_name e.1).

Definition kind_of (node : FsTree) : TreeItemCollapsibleState :=
  if isDirectory node then Collapsed else None_.

(** The state after [new FileItem(...)] and [this.items.set(filePath, item)]. *)
Definition register (filePath : path) (it : FileItem) (s : State) : State :=
  {| heap := heap s ++ [it];
     items := JsMap.set filePath (length (heap s)) (items s);
     allChecked := allChecked s;
     workspaceRoot := workspaceRoot s |}.

(** The text that the specification describes: one block per file, in
    order. *)
Definition document (root : path) (files : list (path * string)) : string :=
  foldr (λ fc rest, block root fc.1 fc.2 +:+ rest) "" files.

Definition readable_as (disk : FsTree) (file : path) (content : string) : Prop :=
  readFile_node (resolve disk file) file = inl content.

(** [this.items.set(k, v)] for each pair of a list in turn. *)
Definition set_all (l : list (path * ref)) (m : JsMap.t) : JsMap.t :=
  foldl (λ m kv, JsMap.set kv.1 kv.2 m) m l.

(** The paths of the entries that [getFilesInDirectory] does not skip. *)
Definition listed_paths (dirPath : path) (entries : list (string * FsTree))
  : list path :=
  (λ e, Path.join dirPath e.1) <$> List.filter listed entries.

(** What the provider keeps true of its state: the keys of the map are
    distinct, every key is the path of the object it holds, and the checkbox
    of every object shows its checked flag. *)
Definition keys_unique (s : State) : Prop := NoDup (JsMap.keys (items s)).

Definition keyed_by_path (s : State) : Prop :=
  ∀ p i, (p, i) ∈ items s → ∃ it, heap s !! i = Some it ∧ filePath it = p.

Definition checkbox_coherent (s : State) : Prop :=
  ∀ i it, heap s !! i = Some it → checkboxState it = checkbox_of (isChecked it).

Definition provider_inv (s : State) : Prop :=
  keys_unique s ∧ keyed_by_path s ∧ checkbox_coherent s.

(** [p] lies strictly below [dirPath], through names that the walk of
    [toggleDirectoryChildren] does not skip. *)
Definition below (dirPath p : path) : Prop :=
  ∃ segs, p = dirPath ++ segs ∧ segs ≠ [] ∧
          Forall (λ name, ignored_name name = false) segs.

(** A run that leaves the state as it found it, leaves no rejection
    unhandled, and whose outcome satisfies [P]. *)
Definition quiet {A} (P : A + Error → Prop) (m : Js A) (s : State) : Prop :=
  ∃ o tr, m s = mkRun o s tr [] ∧ P o.

(** * The scenario of the specification, and three variants *)

(** A workspace [/ws] with [a.txt], [sub/b.txt] and
    [node_modules/ignored.txt]. *)
Definition demo_disk : FsTree :=
  FsDir true
    [("ws", FsDir true
       [("a.txt", FsFile true "X");
        ("sub", FsDir true [("b.txt", FsFile true "Y")]);
        ("node_modules", FsDir true [("ignored.txt", FsFile true "I")])])].

Definition demo_root : path := ["ws"].

(** The root has been listed: [a.txt] is object 0 and [sub] is object 1. *)
Definition demo_listed : State :=
  final (getChildren demo_disk None (newProvider (Some demo_root))).

(** [sub] has been expanded as well: [sub/b.txt] is object 2. *)
Definition demo_expanded : State :=
  final (getChildren demo_disk (Some 1) demo_listed).

(** [a.txt] and [sub] have been toggled, in that order. *)
Definition demo_checked : State :=
  final (toggleCheck demo_disk 1 (final (toggleCheck demo_disk 0 demo_expanded))).


(** A workspace whose [sub] holds, between two files, a directory that
    cannot be read. *)
Definition locked_disk : FsTree :=
  FsDir true
    [("ws", FsDir true
       [("sub", FsDir true
          [("b.txt", FsFile true "Y");
           ("locked", FsDir false [("secret.txt", FsFile true "S")]);
           ("c.txt", FsFile true "Z")])])].

(** Root and [sub] expanded: [sub] is object 0, [b.txt] 1, [locked] 2 and
    [c.txt] 3. *)
Definition locked_expanded : State :=
  final (getChildren locked_disk (Some 0)
           (final (getChildren locked_disk None (newProvider (Some demo_root))))).

(** A workspace whose [sub] is a checkout that keeps its repository
    elsewhere: there [.git] is a file. *)
Definition gitfile_disk : FsTree :=
  FsDir true
    [("ws", FsDir true
       [("sub", FsDir true
          [(".git", FsFile true "gitdir: ../.git/modules/sub");
           ("b.txt", FsFile true "Y")])])].

(** The root listed: [sub] is object 0. *)
Definition gitfile_listed : State :=
  final (getChildren gitfile_disk None (newProvider (Some demo_root))).

(** [sub] has been listed a second time: the map now holds object 3 for
    [sub/b.txt], and object 2 is no longer in it. *)
Definition demo_reexpanded : State :=
  final (getChildren demo_disk (Some 1) demo_expanded).

(** * Properties *)

(** ** Induction over the disk *)

Lemma FsTree_nested_ind (P : FsTree → Prop) :
  (∀ r content, P (FsFile r content)) →
  (∀ r entries, Forall (λ e, P e.2) entries → P (FsDir r entries)) →
  ∀ node, P node.
Proof.
  intros Hfile Hdir.
  fix IH 1.
  intros [r content | r entries].
  - apply Hfile.
  - apply Hdir.
    induction entries as [| [name sub] rest IHrest].
    + constructor.
    + constructor; [exact (IH sub) | exact IHrest].
Qed.

(** The walk carries the node of the directory it reads.  On the disk,
    the node at [path.join(dirPath, name)] is the entry of that name in the
    directory at [dirPath]; names are unique within a directory, so it is
    the node of the entry the loop is at. *)
Lemma resolve_join disk dirPath name r entries :
  resolve disk dirPath = Some (FsDir r entries) →
  resolve disk (Path.join dirPath name) = child name entries.
Proof.
  unfold Path.join. revert disk.
  induction dirPath as [| seg dirPath IH]; intros disk; cbn [resolve app].
  - intros [= ->]. by destruct (child name entries).
  - destruct disk as [r' content | r' entries']; [done |].
    destruct (child seg entries') as [t |]; [apply IH | done].
Qed.

Lemma child_of_entry name sub (entries : list (string * FsTree)) :
  NoDup entries.*1 → (name, sub) ∈ entries → child name entries = Some sub.
Proof.
  induction entries as [| [n t] rest IH]; cbn [child fmap list_fmap fst].
  - by intros _ ?%elem_of_nil.
  - intros [Hfresh Hrest]%NoDup_cons [[= -> ->] | Hin]%elem_of_cons.
    + by rewrite decide_True.
    + rewrite decide_False; [by apply IH |].
      intros ->. apply Hfresh. by apply (list_elem_of_fmap_2 fst _ (name, sub)).
Qed.

(** ** The heap *)

Lemma mark_nil checked h : mark checked [] h = h.
Proof. reflexivity. Qed.

Lemma mark_app checked T1 T2 h :
  mark checked (T1 ++ T2) h = mark checked T2 (mark checked T1 h).
Proof. unfold mark. apply foldl_app. Qed.

Lemma mark_cons checked i T h :
  mark checked (i :: T) h = mark checked T (alter (setChecked checked) i h).
Proof. reflexivity. Qed.

Lemma length_mark checked T h : length (mark checked T h) = length h.
Proof.
  revert h. induction T as [| i T IH]; intros h; [done |].
  rewrite mark_cons, IH. apply length_alter.
Qed.

Lemma mark_lookup checked T h i :
  mark checked T h !! i =
    if decide (i ∈ T) then setChecked checked <$> h !! i else h !! i.
Proof.
  revert h. induction T as [| j T IH]; intros h.
  - rewrite decide_False; [done | apply not_elem_of_nil].
  - rewrite mark_cons, IH.
    destruct (decide (i = j)) as [-> | Hne].
    + rewrite list_lookup_alter_eq, (decide_True (P := j ∈ j :: T)) by (apply elem_of_cons; by left).
      case_decide; [| done]. by destruct (h !! j).
    + rewrite list_lookup_alter_ne by done.
      destruct (decide (i ∈ T)) as [HT | HT].
      * rewrite decide_True; [done | apply elem_of_cons; by right].
      * rewrite decide_False; [done |]. by apply not_elem_of_cons.
Qed.

Lemma mark_lookup_in checked T h i :
  i ∈ T → mark checked T h !! i = setChecked checked <$> h !! i.
Proof. intros. by rewrite mark_lookup, decide_True. Qed.

Lemma mark_lookup_notin checked T h i :
  i ∉ T → mark checked T h !! i = h !! i.
Proof. intros. by rewrite mark_lookup, decide_False. Qed.

(** ** The walk of [toggleDirectoryChildren] *)

Lemma toggleDirectoryChildren_dir entries dirPath checked s :
  toggleDirectoryChildren (FsDir true entries) dirPath checked s =
  (emit (ReadDir dirPath);; toggleEntries dirPath checked entries) s.
Proof. reflexivity. Qed.

(** The body as the source has it: list the directory, then loop. *)
Lemma toggleDirectoryChildren_unfold node dirPath checked s :
  toggleDirectoryChildren node dirPath checked s =
  (emit (ReadDir dirPath);;
   entries ← settle (readdir_node (Some node) dirPath);
   toggleEntries dirPath checked entries) s.
Proof.
  by destruct node as [r content | [|] entries].
Qed.

Lemma Under_dir_iff r entries dirPath p sub :
  Under (FsDir r entries) dirPath p sub ↔ UnderEntries entries dirPath p sub.
Proof.
  split.
  - inversion 1; subst; eexists _, _; eauto.
  - intros (name & t & Hin & Hign & [[-> ->] | Hdeep]).
    + by eapply Under_entry.
    + by eapply Under_deeper.
Qed.

Lemma Under_file r content dirPath p sub : ¬ Under (FsFile r content) dirPath p sub.
Proof. inversion 1. Qed.

Lemma with_heap_with_heap s h h' : with_heap (with_heap s h) h' = with_heap s h'.
Proof. reflexivity. Qed.

Lemma with_heap_id s : with_heap s (heap s) = s.
Proof. by destruct s. Qed.

Lemma walk_post_iff (N N' : path → FsTree → Prop) checked s r :
  (∀ p sub, N p sub ↔ N' p sub) → walk_post N checked s r → walk_post N' checked s r.
Proof.
  intros HN (T & Hfin & Hun & Hsound & Hcomplete).
  exists T. repeat split; [done | done | |].
  - intros i Hi. destruct (Hsound i Hi) as (p & sub & HNp & Hget).
    exists p, sub. split; [by apply HN | done].
  - intros Hok p sub i HNp. apply (Hcomplete Hok p sub). by apply HN.
Qed.

Lemma walk_post_ret (N : path → FsTree → Prop) checked s :
  (∀ p sub, ¬ N p sub) → walk_post N checked s ((mret tt : Js unit) s).
Proof.
  intros Hempty. exists []. rewrite mark_nil, with_heap_id. simpl.
  repeat split; [| by intros; exfalso; eapply Hempty].
  intros i Hi. by apply elem_of_nil in Hi.
Qed.

Lemma walk_post_throw (N : path → FsTree → Prop) checked s e :
  walk_post N checked s (throw e s).
Proof.
  exists []. rewrite mark_nil, with_heap_id. simpl.
  repeat split; [| done].
  intros i Hi. by apply elem_of_nil in Hi.
Qed.

Lemma walk_post_emit (N : path → FsTree → Prop) checked s eff (m : Js unit) :
  walk_post N checked s (m s) → walk_post N checked s ((emit eff;; m) s).
Proof.
  intros (T & Hfin & Hun & Hsound & Hcomplete).
  exists T. unfold mbind, Js_bind, emit. simpl. repeat split; try done.
Qed.

Lemma walk_post_seq (N1 N2 : path → FsTree → Prop) checked s (m k : Js unit) :
  walk_post N1 checked s (m s) →
  (∀ s', items s' = items s → walk_post N2 checked s' (k s')) →
  walk_post (λ p sub, N1 p sub ∨ N2 p sub) checked s ((m;; k) s).
Proof.
  intros (T1 & Hfin1 & Hun1 & Hsound1 & Hcomplete1) Hk.
  unfold mbind, Js_bind.
  destruct (m s) as [[[] | e] s1 tr1 un1] eqn:Hm; simpl in *; subst.
  - destruct (Hk (with_heap s (mark checked T1 (heap s))) eq_refl)
      as (T2 & Hfin2 & Hun2 & Hsound2 & Hcomplete2).
    simpl in *.
    exists (T1 ++ T2). rewrite Hfin2, Hun2, with_heap_with_heap, mark_app.
    repeat split.
    + intros i [Hi | Hi]%elem_of_app.
      * destruct (Hsound1 i Hi) as (p & sub & ? & ?). eauto.
      * destruct (Hsound2 i Hi) as (p & sub & ? & ?). eauto.
    + intros Hok p sub i [HN | HN] Hget; apply elem_of_app.
      * left. by eapply Hcomplete1.
      * right. by eapply Hcomplete2.
  - exists T1. repeat split; [| done].
    intros i Hi. destruct (Hsound1 i Hi) as (p & sub & ? & ?). eauto.
Qed.

Lemma walk_post_update filePath (t : FsTree) checked s :
  walk_post (λ p sub, p = filePath ∧ sub = t) checked s
    ((s0 ← get_state;
      match JsMap.get filePath (items s0) with
      | Some item => updateCheckState item checked
      | None => mret tt
      end) s).
Proof.
  unfold mbind, Js_bind, get_state. simpl.
  destruct (JsMap.get filePath (items s)) as [item |] eqn:Hget; simpl.
  - exists [item]. repeat split.
    + intros i ->%list_elem_of_singleton. eauto.
    + intros _ p sub i [-> ->] Hget'. rewrite Hget in Hget'.
      injection Hget' as ->. by apply list_elem_of_singleton.
  - exists []. rewrite mark_nil, with_heap_id. repeat split.
    + intros i Hi. by apply elem_of_nil in Hi.
    + intros _ p sub i [-> ->] Hget'. congruence.
Qed.

Lemma UnderEntries_nil dirPath p sub : ¬ UnderEntries [] dirPath p sub.
Proof. intros (name & t & Hin & _). by apply elem_of_nil in Hin. Qed.

Lemma UnderEntries_cons_ignored name t rest dirPath p sub :
  ignored_name name = true →
  UnderEntries ((name, t) :: rest) dirPath p sub ↔ UnderEntries rest dirPath p sub.
Proof.
  intros Hign. split.
  - intros (n & t' & [Heq | Hin]%elem_of_cons & Hn & H); [| by exists n, t'].
    injection Heq as -> ->. congruence.
  - intros (n & t' & Hin & Hn & H). exists n, t'.
    split; [apply elem_of_cons; by right | done].
Qed.

Lemma UnderEntries_cons name t rest dirPath p sub :
  ignored_name name = false →
  UnderEntries ((name, t) :: rest) dirPath p sub ↔
  ((p = Path.join dirPath name ∧ sub = t) ∨ Under t (Path.join dirPath name) p sub)
  ∨ UnderEntries rest dirPath p sub.
Proof.
  intros Hign. split.
  - intros (n & t' & [Heq | Hin]%elem_of_cons & Hn & H).
    + injection Heq as -> ->. by left.
    + right. by exists n, t'.
  - intros [H | (n & t' & Hin & Hn & H)].
    + exists name, t. split; [apply elem_of_cons; by left | done].
    + exists n, t'. split; [apply elem_of_cons; by right | done].
Qed.

Lemma toggleEntries_walk entries dirPath checked :
  Forall (λ e, ∀ q s,
    walk_post (Under e.2 q) checked s (toggleDirectoryChildren e.2 q checked s)) entries →
  ∀ s, walk_post (UnderEntries entries dirPath) checked s
         (toggleEntries dirPath checked entries s).
Proof.
  induction 1 as [| [name t] rest Ht _ IH]; intros s.
  - apply walk_post_ret. apply UnderEntries_nil.
  - simpl. destruct (ignored_name name) eqn:Hign.
    + eapply walk_post_iff; [| apply IH].
      intros p sub. symmetry. by apply UnderEntries_cons_ignored.
    + eapply walk_post_iff.
      { intros p sub. symmetry. by apply UnderEntries_cons. }
      pose proof (walk_post_update (Path.join dirPath name) t checked s) as Hupd.
      change (toggleEntries dirPath checked ((name, t) :: rest) s) with
        (((s0 ← get_state;
           match JsMap.get (Path.join dirPath name) (items s0) with
           | Some item => updateCheckState item checked
           | None => mret tt
           end) ≫= λ _,
          ((if isDirectory t
            then toggleDirectoryChildren t (Path.join dirPath name) checked
            else mret tt);; toggleEntries dirPath checked rest)) s).
      apply (walk_post_iff (λ p sub,
        (p = Path.join dirPath name ∧ sub = t) ∨
        (Under t (Path.join dirPath name) p sub ∨ UnderEntries rest dirPath p sub))).
      { intros p sub. tauto. }
      apply walk_post_seq; [exact Hupd |].
      intros s1 _. apply walk_post_seq; [| intros s2 _; apply IH].
      destruct t as [r content | r sub_entries]; simpl.
      * apply walk_post_ret. intros p sub. apply Under_file.
      * apply (Ht (Path.join dirPath name) s1).
Qed.

(** The walk below a directory node, whether or not it can be read. *)
Lemma toggleDirectoryChildren_walk node :
  ∀ dirPath checked s,
    walk_post (Under node dirPath) checked s
      (toggleDirectoryChildren node dirPath checked s).
Proof.
  induction node as [r content | r entries IH] using FsTree_nested_ind;
    intros dirPath checked s.
  - apply walk_post_emit, walk_post_throw.
  - destruct r.
    + rewrite toggleDirectoryChildren_dir. apply walk_post_emit.
      eapply walk_post_iff; [intros p sub; symmetry; apply Under_dir_iff |].
      apply toggleEntries_walk.
      eapply Forall_impl; [exact IH |]. intros e He q s'. apply He.
    + apply walk_post_emit, walk_post_throw.
Qed.

Lemma toggleDirectoryChildrenAt_walk disk dirPath checked s :
  ∃ T,
    let r := toggleDirectoryChildrenAt disk dirPath checked s in
    final r = with_heap s (mark checked T (heap s)) ∧
    unhandled r = [] ∧
    (∀ node, resolve disk dirPath = Some node →
       (∀ i, i ∈ T → ∃ p sub, Under node dirPath p sub ∧ JsMap.get p (items s) = Some i) ∧
       (outcome r = inl tt →
        ∀ p sub i, Under node dirPath p sub → JsMap.get p (items s) = Some i → i ∈ T)).
Proof.
  unfold toggleDirectoryChildrenAt.
  destruct (resolve disk dirPath) as [node |] eqn:Hres.
  - destruct (toggleDirectoryChildren_walk node dirPath checked s)
      as (T & Hfin & Hun & Hsound & Hcomplete).
    exists T. cbn zeta. split; [exact Hfin | split; [exact Hun |]].
    intros node' [= <-]. split; [exact Hsound | exact Hcomplete].
  - exists []. rewrite mark_nil, with_heap_id. cbn zeta.
    split; [done | split; [done |]]. intros node' [=].
Qed.

(** ** [toggleCheck] *)

Lemma toggleCheck_file_run disk item s it :
  heap s !! item = Some it →
  collapsibleState it = None_ →
  toggleCheck disk item s =
    mkRun (inl tt)
      (with_heap s (alter (setChecked (negb (isChecked it))) item (heap s)))
      [Refresh] [].
Proof.
  intros Hit Hkind. unfold toggleCheck, mbind, Js_bind, deref.
  rewrite Hit. simpl. rewrite Hkind. reflexivity.
Qed.

(** A directory item: the flag of the item is flipped, the walk runs
    detached, and [toggleCheck] itself returns normally whatever the walk
    settles to. *)
Lemma toggleCheck_directory_run disk item s it :
  heap s !! item = Some it →
  collapsibleState it ≠ None_ →
  let checked := negb (isChecked it) in
  let r := toggleCheck disk item s in
  let walk :=
    toggleDirectoryChildrenAt disk (filePath it) checked
      (with_heap s (alter (setChecked checked) item (heap s))) in
  outcome r = inl tt ∧
  unhandled r = match outcome walk with inl _ => [] | inr e => [e] end ∧
  trace r = Refresh :: trace walk ∧
  ∃ T,
    final r = with_heap s (mark checked (item :: T) (heap s)) ∧
    (∀ node, resolve disk (filePath it) = Some node →
       (∀ i, i ∈ T →
          ∃ p sub, Under node (filePath it) p sub ∧ JsMap.get p (items s) = Some i) ∧
       (unhandled r = [] →
        ∀ p sub i, Under node (filePath it) p sub →
                   JsMap.get p (items s) = Some i → i ∈ T)).
Proof.
  intros Hit Hkind checked r walk.
  destruct (toggleDirectoryChildrenAt_walk disk (filePath it) checked
              (with_heap s (alter (setChecked checked) item (heap s))))
    as (T & Hfin & Hun & Hwalk).
  fold walk in Hfin, Hun, Hwalk. simpl in Hfin, Hun, Hwalk.
  assert (Hr : r = mkRun (inl tt) (final walk) (Refresh :: trace walk)
                 (unhandled walk ++
                  match outcome walk with inl _ => [] | inr e => [e] end)).
  { subst r. unfold toggleCheck, mbind, Js_bind, deref.
    rewrite Hit. simpl. rewrite decide_True by done. reflexivity. }
  rewrite Hr, Hun. simpl. repeat split.
  exists T. split.
  { rewrite Hfin. reflexivity. }
  intros node Hnode. destruct (Hwalk node Hnode) as [Hsound Hcomplete].
  split; [exact Hsound |].
  intros Hnone. apply Hcomplete.
  destruct (outcome walk) as [[] | e]; [done | discriminate].
Qed.

Lemma toggleCheck_item disk item s it :
  heap s !! item = Some it →
  heap (final (toggleCheck disk item s)) !! item
    = Some (setChecked (negb (isChecked it)) it).
Proof.
  intros Hit. destruct (decide (collapsibleState it = None_)) as [Hkind | Hkind].
  - rewrite (toggleCheck_file_run disk item s it Hit Hkind).
    cbn [final with_heap heap].
    by rewrite list_lookup_alter_eq, Hit.
  - destruct (toggleCheck_directory_run disk item s it Hit Hkind)
      as (_ & _ & _ & T & Hfin & _).
    rewrite Hfin. cbn [with_heap heap]. rewrite mark_lookup_in, Hit; [done |].
    apply elem_of_cons. by left.
Qed.

(** [toggleCheck] never throws to its caller, whatever the disk is like. *)
Lemma toggleCheck_never_throws disk item s it :
  heap s !! item = Some it → outcome (toggleCheck disk item s) = inl tt.
Proof.
  intros Hit. destruct (decide (collapsibleState it = None_)) as [Hkind | Hkind].
  - by rewrite (toggleCheck_file_run disk item s it Hit Hkind).
  - by destruct (toggleCheck_directory_run disk item s it Hit Hkind) as (Hout & _).
Qed.

(** The toggles keep the references of the map valid. *)
Lemma refs_valid_mark checked T s :
  refs_valid s → refs_valid (with_heap s (mark checked T (heap s))).
Proof.
  intros Hvalid p i Hin. cbn [with_heap heap items] in *.
  rewrite length_mark. by apply (Hvalid p).
Qed.

Lemma refs_valid_toggleCheck disk item s it :
  heap s !! item = Some it →
  refs_valid s → refs_valid (final (toggleCheck disk item s)).
Proof.
  intros Hit Hvalid.
  destruct (decide (collapsibleState it = None_)) as [Hkind | Hkind].
  - rewrite (toggleCheck_file_run disk item s it Hit Hkind). cbn [final].
    by apply (refs_valid_mark _ [item]).
  - destruct (toggleCheck_directory_run disk item s it Hit Hkind)
      as (_ & _ & _ & T & Hfin & _).
    rewrite Hfin. by apply refs_valid_mark.
Qed.

Lemma JsMap_get_elem_of p i (m : JsMap.t) : JsMap.get p m = Some i → (p, i) ∈ m.
Proof.
  induction m as [| [k v] rest IH]; simpl; [done |].
  case_decide as Hk.
  - intros [= ->]. subst. apply elem_of_cons. by left.
  - intros Hget. apply elem_of_cons. right. by apply IH.
Qed.

Lemma getCheckedFiles_loop_elem_of h (m : JsMap.t) p :
  p ∈ getCheckedFiles_loop h m ↔
  ∃ i it, (p, i) ∈ m ∧ h !! i = Some it ∧
          isChecked it = true ∧ collapsibleState it = None_.
Proof.
  induction m as [| [k v] rest IH]; simpl.
  - split; [by intros ?%elem_of_nil |].
    by intros (i & it & ?%elem_of_nil & _).
  - split.
    + intros Hin.
      assert (Hrest : p ∈ getCheckedFiles_loop h rest →
                ∃ i it, (p, i) ∈ (k, v) :: rest ∧ h !! i = Some it ∧
                        isChecked it = true ∧ collapsibleState it = None_).
      { intros (i & it & ? & ?)%IH. exists i, it.
        split; [apply elem_of_cons; by right | done]. }
      destruct (h !! v) as [itv |] eqn:Hv; [| by apply Hrest].
      destruct (isChecked itv) eqn:Hc; simpl in Hin; [| by apply Hrest].
      case_bool_decide as Hkind; [| by apply Hrest].
      apply elem_of_cons in Hin as [-> | Hin]; [| by apply Hrest].
      exists v, itv. split; [apply elem_of_cons; by left | done].
    + intros (i & it & [Heq | Hin]%elem_of_cons & Hi & Hc & Hkind).
      * injection Heq as -> ->.
        rewrite Hi, Hc, (bool_decide_eq_true_2 _ Hkind).
        simpl. apply elem_of_cons. by left.
      * assert (p ∈ getCheckedFiles_loop h rest) as Hrest
          by (apply IH; exists i, it; done).
        destruct (h !! v) as [itv |]; [| done].
        destruct (isChecked itv && bool_decide (collapsibleState itv = None_));
          [apply elem_of_cons; by right | done].
Qed.

(** C10. Toggling a file item changes the checked flag of that one object
    and nothing else: the map is the same, every other object is the
    same, the label, path and kind of the item are kept, and the only call
    to the host is the refresh of the view, so the disk is not read. *)
Theorem toggleCheck_file_frame disk s item it :
  heap s !! item = Some it →
  collapsibleState it = None_ →
  let r := toggleCheck disk item s in
  outcome r = inl tt ∧
  trace r = [Refresh] ∧
  unhandled r = [] ∧
  items (final r) = items s ∧
  allChecked (final r) = allChecked s ∧
  workspaceRoot (final r) = workspaceRoot s ∧
  length (heap (final r)) = length (heap s) ∧
  (∀ j, j ≠ item → heap (final r) !! j = heap s !! j) ∧
  ∃ it', heap (final r) !! item = Some it' ∧
         isChecked it' = negb (isChecked it) ∧
         label it' = label it ∧
         filePath it' = filePath it ∧
         collapsibleState it' = collapsibleState it.
Proof.
  intros Hit Hkind r. subst r.
  rewrite (toggleCheck_file_run disk item s it Hit Hkind).
  cbn [final outcome trace unhandled with_heap heap items allChecked workspaceRoot].
  repeat split.
  - apply length_alter.
  - intros j Hj. by apply list_lookup_alter_ne.
  - exists (setChecked (negb (isChecked it)) it).
    by rewrite list_lookup_alter_eq, Hit.
Qed.

(** C9. Toggling the same item twice in a row gives it back the checked
    value it had: the first call negates the flag, the second negates it
    again.  This holds for files and for directories, whatever the walks
    do, since a walk only ever writes the value the item has just been
    given. *)
Theorem toggleCheck_involution disk1 disk2 s item it :
  heap s !! item = Some it →
  let r1 := toggleCheck disk1 item s in
  let r2 := toggleCheck disk2 item (final r1) in
  isChecked <$> heap (final r1) !! item = Some (negb (isChecked it)) ∧
  isChecked <$> heap (final r2) !! item = Some (isChecked it).
Proof.
  intros Hit r1 r2.
  pose proof (toggleCheck_item disk1 item s it Hit) as H1. fold r1 in H1.
  pose proof (toggleCheck_item disk2 item (final r1) _ H1) as H2. fold r2 in H2.
  rewrite H1, H2. simpl. by rewrite negb_involutive.
Qed.

(** C1, as the code has it.  Toggling a directory item whose walk completes
    gives the new checked value to every object that the map already holds
    for an entry on disk below the directory (reached through names other
    than [node_modules] and [.git]), and leaves the map as it was: no entry
    is created.  When the new value is checked, [getCheckedFiles] then
    lists each of those entries that the map holds as a file. *)
Theorem toggleCheck_directory_known_descendants disk s item it node :
  heap s !! item = Some it →
  collapsibleState it ≠ None_ →
  resolve disk (filePath it) = Some node →
  let checked := negb (isChecked it) in
  let r := toggleCheck disk item s in
  unhandled r = [] →
  items (final r) = items s ∧
  (∀ p sub i, Under node (filePath it) p sub →
     JsMap.get p (items s) = Some i →
     heap (final r) !! i = setChecked checked <$> heap s !! i) ∧
  (checked = true →
   ∀ p sub i known, Under node (filePath it) p sub →
     JsMap.get p (items s) = Some i →
     heap s !! i = Some known →
     collapsibleState known = None_ →
     p ∈ getCheckedFiles_loop (heap (final r)) (items (final r))).
Proof.
  intros Hit Hkind Hnode checked r Hdone.
  destruct (toggleCheck_directory_run disk item s it Hit Hkind)
    as (_ & _ & _ & T & Hfin & Hwalk).
  destruct (Hwalk node Hnode) as [_ Hcomplete].
  fold r in Hfin, Hcomplete. fold checked in Hfin.
  specialize (Hcomplete Hdone).
  assert (Hset : ∀ p sub i, Under node (filePath it) p sub →
            JsMap.get p (items s) = Some i →
            heap (final r) !! i = setChecked checked <$> heap s !! i).
  { intros p sub i Hunder Hget. rewrite Hfin. cbn [with_heap heap].
    apply mark_lookup_in, elem_of_cons. right. by eapply Hcomplete. }
  split; [by rewrite Hfin | split; [exact Hset |]].
  intros Hchecked p sub i known Hunder Hget Hknown Hfile.
  apply getCheckedFiles_loop_elem_of.
  exists i, (setChecked checked known). split; [| split; [| split]].
  - rewrite Hfin. cbn [with_heap items]. by apply JsMap_get_elem_of.
  - by rewrite (Hset p sub i Hunder Hget), Hknown.
  - exact Hchecked.
  - exact Hfile.
Qed.

(** ** [toggleAllFiles] *)

Lemma forEach_updateCheckState checked (m : JsMap.t) s :
  forEach m (λ kv, updateCheckState kv.2 checked) s =
    mkRun (inl tt) (with_heap s (mark checked (JsMap.values m) (heap s))) [] [].
Proof.
  revert s. induction m as [| [k v] rest IH]; intros s.
  - simpl. by rewrite with_heap_id.
  - simpl. unfold mbind, Js_bind, updateCheckState, modify.
    cbn [outcome final trace unhandled]. rewrite IH. reflexivity.
Qed.

Lemma toggleAllFiles_run s :
  toggleAllFiles s =
    mkRun (inl tt)
      {| heap := mark (negb (allChecked s)) (JsMap.values (items s)) (heap s);
         items := items s;
         allChecked := negb (allChecked s);
         workspaceRoot := workspaceRoot s |}
      [Refresh;
       ShowInformationMessage
         (if negb (allChecked s) then "All files selected" else "All files deselected")]
      [].
Proof.
  unfold toggleAllFiles, mbind, Js_bind, modify, get_state, refresh, emit.
  cbn [outcome final trace unhandled items allChecked].
  rewrite forEach_updateCheckState. reflexivity.
Qed.

Lemma refs_valid_toggleAllFiles s :
  refs_valid s → refs_valid (final (toggleAllFiles s)).
Proof.
  intros Hvalid p i Hin. rewrite toggleAllFiles_run in *.
  cbn [final heap items] in *. rewrite length_mark. by apply (Hvalid p).
Qed.


(** ** [getFilesInDirectory] *)

Lemma JsMap_get_set k v p (m : JsMap.t) :
  JsMap.get p (JsMap.set k v m) = if decide (k = p) then Some v else JsMap.get p m.
Proof.
  induction m as [| [k' v'] rest IH]; simpl.
  - done.
  - destruct (decide (k' = k)) as [-> | Hk]; simpl.
    + by destruct (decide (k = p)).
    + destruct (decide (k' = p)) as [-> | Hp].
      * by rewrite decide_False.
      * exact IH.
Qed.

Lemma JsMap_set_elem_of k v p i (m : JsMap.t) :
  (p, i) ∈ JsMap.set k v m → (p = k ∧ i = v) ∨ (p, i) ∈ m.
Proof.
  induction m as [| [k' v'] rest IH]; simpl.
  - intros [= -> ->]%list_elem_of_singleton. by left.
  - destruct (decide (k' = k)) as [-> | Hk].
    + intros [[= -> ->] | Hin]%elem_of_cons; [by left |].
      right. apply elem_of_cons. by right.
    + intros [[= -> ->] | Hin]%elem_of_cons.
      * right. apply elem_of_cons. by left.
      * destruct (IH Hin) as [? | ?]; [by left |].
        right. apply elem_of_cons. by right.
Qed.

(** The order of the keys: a known key keeps its place, a new key goes
    last. *)
Lemma JsMap_keys_set k v (m : JsMap.t) :
  JsMap.keys (JsMap.set k v m) =
    if decide (k ∈ JsMap.keys m) then JsMap.keys m else JsMap.keys m ++ [k].
Proof.
  unfold JsMap.keys.
  induction m as [| [k' v'] rest IH]; [done |].
  cbn [JsMap.set fmap list_fmap fst].
  destruct (decide (k' = k)) as [-> | Hk]; cbn [fmap list_fmap fst].
  - rewrite decide_True; [done | apply elem_of_cons; by left].
  - rewrite IH.
    destruct (decide (k ∈ fst <$> rest)) as [Hin | Hin].
    + rewrite decide_True; [done | apply elem_of_cons; by right].
    + rewrite decide_False; [done |].
      apply not_elem_of_cons. split; [congruence | done].
Qed.

Lemma register_step name kind filePath (k : ref → Js (list ref)) s :
  (s0 ← get_state;
   item ← alloc (newFileItem name kind filePath (knownChecked s0 filePath));
   items_set filePath item;;
   k item) s =
  let r' := k (length (heap s))
              (register filePath
                 (newFileItem name kind filePath (knownChecked s filePath)) s) in
  mkRun (outcome r') (final r') (trace r') (unhandled r').
Proof. reflexivity. Qed.

Lemma refs_valid_register filePath it s :
  refs_valid s → refs_valid (register filePath it s).
Proof.
  intros Hvalid p i [[-> ->] | Hin]%JsMap_set_elem_of; simpl;
    rewrite length_app; simpl; [lia |].
  specialize (Hvalid p i Hin). lia.
Qed.

Lemma knownChecked_register filePath it s p :
  refs_valid s →
  isChecked it = knownChecked s filePath →
  knownChecked (register filePath it s) p = knownChecked s p.
Proof.
  intros Hvalid Hit. unfold knownChecked at 1. cbn [register items heap].
  rewrite JsMap_get_set. case_decide as Hp.
  - subst p. by rewrite list_lookup_middle.
  - unfold knownChecked.
    destruct (JsMap.get p (items s)) as [j |] eqn:Hget; [| done].
    apply JsMap_get_elem_of, Hvalid in Hget.
    by rewrite lookup_app_l.
Qed.

Lemma getFilesInDirectory_loop_run dirPath entries :
  ∀ acc s, refs_valid s →
  ∃ refs new,
    let r := getFilesInDirectory_loop dirPath entries acc s in
    outcome r = inl (acc ++ refs) ∧
    trace r = [] ∧
    unhandled r = [] ∧
    refs_valid (final r) ∧
    heap (final r) = heap s ++ new ∧
    allChecked (final r) = allChecked s ∧
    workspaceRoot (final r) = workspaceRoot s ∧
    (∀ p, knownChecked (final r) p = knownChecked s p) ∧
    Forall2 (λ e i,
        heap (final r) !! i =
          Some (newFileItem e.1 (kind_of e.2) (Path.join dirPath e.1)
                  (knownChecked s (Path.join dirPath e.1))))
      (List.filter listed entries) refs.
Proof.
  induction entries as [| [name node] rest IH]; intros acc s Hvalid.
  - exists [], []. simpl. rewrite !app_nil_r. repeat split; done.
  - set (filePath := Path.join dirPath name).
    set (it := newFileItem name (kind_of node) filePath (knownChecked s filePath)).
    destruct (isDirectory node && ignored_name name) eqn:Hskip.
    + destruct (IH acc s Hvalid) as (refs & new & H).
      exists refs, new. simpl. unfold listed. simpl. rewrite Hskip. exact H.
    + assert (Hrun : getFilesInDirectory_loop dirPath ((name, node) :: rest) acc s =
                let r' := getFilesInDirectory_loop dirPath rest
                            (acc ++ [length (heap s)]) (register filePath it s) in
                mkRun (outcome r') (final r') (trace r') (unhandled r')).
      { simpl. rewrite Hskip. subst it. unfold kind_of.
        destruct (isDirectory node); apply register_step. }
      destruct (IH (acc ++ [length (heap s)]) (register filePath it s))
        as (refs & new & Hout & Htr & Hun & Hvalid' & Hheap & Hflag & Hroot & Hknown & Hall).
      { by apply refs_valid_register. }
      assert (Hsame : ∀ p, knownChecked (register filePath it s) p = knownChecked s p).
      { intros p. by apply knownChecked_register. }
      exists (length (heap s) :: refs), (it :: new).
      rewrite Hrun. cbn zeta. cbn [outcome final trace unhandled].
      simpl in Hout, Htr, Hun, Hvalid', Hheap, Hflag, Hroot, Hknown, Hall.
      repeat split; try done.
      * rewrite Hout. by rewrite <- app_assoc.
      * rewrite Hheap. by rewrite <- app_assoc.
      * intros p. by rewrite Hknown.
      * simpl. unfold listed at 1. cbn [fst snd]. rewrite Hskip. cbn [negb].
        constructor.
        -- rewrite Hheap, <- app_assoc. by apply list_lookup_middle.
        -- eapply Forall2_impl; [exact Hall |].
           intros e i Hi. cbn beta in Hi. by rewrite <- Hsame.
Qed.

Lemma getFilesInDirectory_run disk dirPath s entries :
  refs_valid s →
  readdir_node (resolve disk dirPath) dirPath = inl entries →
  ∃ refs new,
    let r := getFilesInDirectory disk dirPath s in
    outcome r = inl refs ∧
    trace r = [ReadDir dirPath] ∧
    unhandled r = [] ∧
    refs_valid (final r) ∧
    heap (final r) = heap s ++ new ∧
    allChecked (final r) = allChecked s ∧
    workspaceRoot (final r) = workspaceRoot s ∧
    (∀ p, knownChecked (final r) p = knownChecked s p) ∧
    Forall2 (λ e i,
        heap (final r) !! i =
          Some (newFileItem e.1 (kind_of e.2) (Path.join dirPath e.1)
                  (knownChecked s (Path.join dirPath e.1))))
      (List.filter listed entries) refs.
Proof.
  intros Hvalid Hdir.
  destruct (getFilesInDirectory_loop_run dirPath entries [] s Hvalid)
    as (refs & new & Hout & Htr & Hun & H).
  exists refs, new.
  unfold getFilesInDirectory, mbind, Js_bind, emit. rewrite Hdir.
  cbn [outcome final trace unhandled settle mret Js_ret].
  cbn zeta in Hout, Htr, Hun, H.
  rewrite Hout, Htr, Hun.
  cbn [outcome final trace unhandled app].
  repeat split; try done; apply H.
Qed.

Lemma Forall2_fmap_eq {A B C} (f : B → C) (g : A → C) (l : list A) (k : list B) :
  Forall2 (λ a b, f b = g a) l k → f <$> k = g <$> l.
Proof.
  induction 1 as [| a b l k Hab _ IH]; [done |].
  change (f b :: (f <$> k) = g a :: (g <$> l)). by rewrite Hab, IH.
Qed.

(** C4. [getFilesInDirectory] on a readable directory returns one new item
    per listed entry, in the order of the listing.  The item of a path that
    the map did not hold is unchecked; the item of a path that the map held
    takes the checked value of the object held.  Expanding the same
    directory again, with nothing toggled in between, returns items with
    the same paths and the same checked values. *)
Theorem getFilesInDirectory_expand disk dirPath s entries :
  refs_valid s →
  readdir_node (resolve disk dirPath) dirPath = inl entries →
  let r1 := getFilesInDirectory disk dirPath s in
  let r2 := getFilesInDirectory disk dirPath (final r1) in
  ∃ refs1 refs2,
    outcome r1 = inl refs1 ∧
    outcome r2 = inl refs2 ∧
    Forall2 (λ e i, ∃ it,
        heap (final r1) !! i = Some it ∧
        label it = e.1 ∧
        filePath it = Path.join dirPath e.1 ∧
        collapsibleState it = kind_of e.2 ∧
        match JsMap.get (filePath it) (items s) with
        | None => isChecked it = false
        | Some old => ∀ o, heap s !! old = Some o → isChecked it = isChecked o
        end)
      (List.filter listed entries) refs1 ∧
    (λ i, (λ it, (filePath it, isChecked it)) <$> heap (final r2) !! i) <$> refs2 =
    (λ i, (λ it, (filePath it, isChecked it)) <$> heap (final r1) !! i) <$> refs1.
Proof.
  intros Hvalid Hdir r1 r2.
  destruct (getFilesInDirectory_run disk dirPath s entries Hvalid Hdir)
    as (refs1 & new1 & Hout1 & _ & _ & Hvalid1 & _ & _ & _ & Hknown1 & Hall1).
  fold r1 in Hout1, Hvalid1, Hknown1, Hall1.
  destruct (getFilesInDirectory_run disk dirPath (final r1) entries Hvalid1 Hdir)
    as (refs2 & new2 & Hout2 & _ & _ & _ & _ & _ & _ & _ & Hall2).
  fold r2 in Hout2, Hall2.
  exists refs1, refs2. split; [done | split; [done | split]].
  - eapply Forall2_impl; [exact Hall1 |].
    intros e i Hi. cbn beta in Hi. eexists. split; [exact Hi |].
    cbn [newFileItem label filePath collapsibleState isChecked].
    repeat split. unfold knownChecked.
    destruct (JsMap.get (Path.join dirPath e.1) (items s)) as [old |]; [| done].
    intros o Ho. by rewrite Ho.
  - set (g := λ e : string * FsTree,
          Some (Path.join dirPath e.1, knownChecked s (Path.join dirPath e.1))).
    rewrite (Forall2_fmap_eq _ g (List.filter listed entries) refs1).
    + apply (Forall2_fmap_eq _ g).
      eapply Forall2_impl; [exact Hall2 |].
      intros e i Hi. cbn beta in Hi. rewrite Hi. subst g. simpl.
      by rewrite Hknown1.
    + eapply Forall2_impl; [exact Hall1 |].
      intros e i Hi. cbn beta in Hi. by rewrite Hi.
Qed.

(** ** [generateFile] *)

(** The equations of the monad, one step at a time. *)
Lemma bind_eq {A B} (m : Js A) (f : A → Js B) s :
  (m ≫= f) s =
    match outcome (m s) with
    | inl a =>
        mkRun (outcome (f a (final (m s)))) (final (f a (final (m s))))
          (trace (m s) ++ trace (f a (final (m s))))
          (unhandled (m s) ++ unhandled (f a (final (m s))))
    | inr e => mkRun (inr e) (final (m s)) (trace (m s)) (unhandled (m s))
    end.
Proof. reflexivity. Qed.

Lemma try_catch_eq {A} (m : Js A) (h : Error → Js A) s :
  try_catch m h s =
    match outcome (m s) with
    | inl a => m s
    | inr e =>
        mkRun (outcome (h e (final (m s)))) (final (h e (final (m s))))
          (trace (m s) ++ trace (h e (final (m s))))
          (unhandled (m s) ++ unhandled (h e (final (m s))))
    end.
Proof. reflexivity. Qed.

Lemma append_assoc (a b c : string) : (a +:+ b) +:+ c = a +:+ (b +:+ c).
Proof.
  induction a as [| x a IH]; [done |].
  change (String x ((a +:+ b) +:+ c) = String x (a +:+ (b +:+ c))). by rewrite IH.
Qed.

Lemma append_nil_r (a : string) : a +:+ "" = a.
Proof.
  induction a as [| x a IH]; [done |].
  change (String x (a +:+ "") = String x a). by rewrite IH.
Qed.

Lemma readFiles_ok disk root files contents :
  Forall2 (readable_as disk) files contents →
  ∀ output s,
    readFiles disk root files output s =
      mkRun (inl (output +:+ document root (zip files contents))) s
        (ReadFile <$> files) [].
Proof.
  induction 1 as [| file content files contents Hread _ IH]; intros output s.
  - cbn [readFiles zip zip_with document foldr fmap list_fmap].
    by rewrite append_nil_r.
  - cbn [readFiles]. unfold mbind, Js_bind, emit. cbn [outcome final trace unhandled].
    red in Hread. rewrite Hread. cbn [settle mret Js_ret outcome final trace unhandled].
    rewrite IH. cbn [outcome final trace unhandled app zip zip_with document foldr fst snd].
    unfold block. fold (document root (zip files contents)).
    by rewrite !append_assoc.
Qed.


Lemma getCheckedFiles_run s :
  getCheckedFiles s = mkRun (inl (getCheckedFiles_loop (heap s) (items s))) s [] [].
Proof. reflexivity. Qed.

Lemma getCheckedFiles_loop_sublist h (m : JsMap.t) :
  getCheckedFiles_loop h m `sublist_of` JsMap.keys m.
Proof.
  induction m as [| [p item] rest IH]; [constructor |].
  cbn [getCheckedFiles_loop JsMap.keys fmap list_fmap fst].
  destruct (h !! item) as [it |]; [| by apply sublist_cons].
  destruct (isChecked it && bool_decide (collapsibleState it = None_));
    [by apply sublist_skip | by apply sublist_cons].
Qed.

(** C6. With no checked file, [generateFile] shows the warning and returns:
    the state is the one it started from, nothing is read, nothing is
    written, and no error message is shown. *)
Theorem generateFile_no_selection disk ui s :
  outcome (getCheckedFiles s) = inl [] →
  generateFile disk ui s =
    mkRun (inl tt) s [ShowWarningMessage "No files selected!"] [].
Proof.
  rewrite getCheckedFiles_run. cbn [outcome]. intros [= Hnone].
  unfold generateFile. rewrite bind_eq, getCheckedFiles_run.
  cbn [outcome final trace unhandled]. by rewrite Hnone.
Qed.

(** [generateFile] once the selection is not empty, a name has been typed
    and the root is known: what is left is the [try] block. *)
Lemma generateFile_named disk ui s fileName root files :
  outcome (getCheckedFiles s) = inl files →
  files ≠ [] →
  inputBox ui = Some fileName →
  fileName ≠ "" →
  workspaceRoot s = Some root →
  generateFile disk ui s =
    (emit ShowInputBox;;
     let outputPath := Path.join root (fileName +:+ ".txt") in
     try_catch
       (output ← readFiles disk root files "";
        emit (WriteFile outputPath output);;
        settle (writeFile_result ui);;
        emit (ShowInformationMessage ("Generated file: " +:+ fileName +:+ ".txt"));;
        if decide (informationAction ui = Some "Open File")
        then emit (OpenTextDocument outputPath);; emit ShowTextDocument
        else mret tt)
       (λ error,
          emit (ShowErrorMessage ("Error generating file: " +:+ message error)))) s.
Proof.
  rewrite getCheckedFiles_run. cbn [outcome]. intros [= Hfiles] Hsome Hname Hne Hroot.
  unfold generateFile. unfold mbind at 1. unfold Js_bind at 1.
  rewrite getCheckedFiles_run. cbn [outcome final trace unhandled].
  rewrite Hfiles, Hname.
  destruct files as [| f files]; [done |].
  destruct fileName as [| c fileName]; [done |].
  cbn [length bool_decide decide_rel]. rewrite bool_decide_eq_false_2 by done.
  unfold workspaceRoot_bang, mbind, Js_bind, get_state, emit.
  cbn [outcome final trace unhandled]. rewrite Hroot.
  cbn [mret Js_ret outcome final trace unhandled app]. reflexivity.
Qed.



(** ** The methods on the concrete disks *)

(** C1, as the specification states it, fails.  [sub] is toggled before it
    was ever expanded: the walk completes, [sub/b.txt] is on disk below
    [sub], yet the map gets no entry for it and [getCheckedFiles] does not
    list it. *)
Lemma toggleCheck_unexpanded_directory_counterexample :
  let r := toggleCheck demo_disk 1 demo_listed in
  heap demo_listed !! 1 = Some (newFileItem "sub" Collapsed ["ws"; "sub"] false) ∧
  resolve demo_disk ["ws"; "sub"] = Some (FsDir true [("b.txt", FsFile true "Y")]) ∧
  Under (FsDir true [("b.txt", FsFile true "Y")]) ["ws"; "sub"]
    ["ws"; "sub"; "b.txt"] (FsFile true "Y") ∧
  outcome r = inl tt ∧
  unhandled r = [] ∧
  isChecked <$> heap (final r) !! 1 = Some true ∧
  JsMap.get ["ws"; "sub"; "b.txt"] (items (final r)) = None ∧
  outcome (getCheckedFiles (final r)) = inl [] ∧
  ¬ (["ws"; "sub"; "b.txt"] ∈ getCheckedFiles_loop (heap (final r)) (items (final r))).
Proof.
  repeat split; try reflexivity.
  - apply (Under_entry true [("b.txt", FsFile true "Y")] ["ws"; "sub"] "b.txt").
    + apply elem_of_cons. by left.
    + reflexivity.
  - vm_compute. apply not_elem_of_nil.
Qed.

Lemma toggleCheck_directory_known_descendants_witness :
  let it := newFileItem "sub" Collapsed ["ws"; "sub"] false in
  let node := FsDir true [("b.txt", FsFile true "Y")] in
  let r := toggleCheck demo_disk 1 demo_expanded in
  (heap demo_expanded !! 1 = Some it ∧
   collapsibleState it ≠ None_ ∧
   resolve demo_disk (filePath it) = Some node ∧
   unhandled r = []) ∧
  items (final r) = items demo_expanded ∧
  ["ws"; "sub"; "b.txt"] ∈ getCheckedFiles_loop (heap (final r)) (items (final r)).
Proof.
  intros it node r.
  assert (Hkind : collapsibleState it ≠ None_) by discriminate.
  split; [repeat split; try reflexivity; exact Hkind |].
  destruct (toggleCheck_directory_known_descendants demo_disk demo_expanded 1 it node
              eq_refl Hkind eq_refl eq_refl) as (Hitems & _ & Hfiles).
  split; [exact Hitems |].
  apply (Hfiles eq_refl ["ws"; "sub"; "b.txt"] (FsFile true "Y") 2
           (newFileItem "b.txt" None_ ["ws"; "sub"; "b.txt"] false));
    try reflexivity.
  apply (Under_entry true [("b.txt", FsFile true "Y")] ["ws"; "sub"] "b.txt").
  - apply elem_of_cons. by left.
  - reflexivity.
Defined.

(** C2. The walk below [sub] rejects when it reaches the unreadable
    directory: the entries before it have been given the new value and the
    one after it has not, nothing is rolled back, and [toggleCheck] returns
    normally.  The rejection is left unhandled: the caller of [toggleCheck]
    does not see it and no message is shown. *)
Theorem toggleCheck_drops_walk_error :
  let r := toggleCheck locked_disk 0 locked_expanded in
  JsMap.keys (items locked_expanded) =
    [["ws"; "sub"]; ["ws"; "sub"; "b.txt"]; ["ws"; "sub"; "locked"]; ["ws"; "sub"; "c.txt"]] ∧
  isChecked <$> heap locked_expanded = [false; false; false; false] ∧
  outcome r = inl tt ∧
  unhandled r = [FsError EACCES "scandir" ["ws"; "sub"; "locked"]] ∧
  trace r = [Refresh; ReadDir ["ws"; "sub"]; ReadDir ["ws"; "sub"; "locked"]] ∧
  items (final r) = items locked_expanded ∧
  isChecked <$> heap (final r) = [true; true; true; false].
Proof. repeat split. Qed.

(** C3. [getFilesInDirectory] lists the file named [.git] like any other
    file, but the walk of [toggleDirectoryChildren] skips the name whatever
    the kind of the entry: after [sub] is toggled, [sub/b.txt] is checked
    and the file [sub/.git] is not. *)
Theorem toggleCheck_skips_git_file :
  let e := getChildren gitfile_disk (Some 0) gitfile_listed in
  let r := toggleCheck gitfile_disk 0 (final e) in
  outcome e = inl [1; 2] ∧
  heap (final e) !! 1 = Some (newFileItem ".git" None_ ["ws"; "sub"; ".git"] false) ∧
  heap (final e) !! 2 = Some (newFileItem "b.txt" None_ ["ws"; "sub"; "b.txt"] false) ∧
  JsMap.get ["ws"; "sub"; ".git"] (items (final e)) = Some 1 ∧
  unhandled r = [] ∧
  heap (final r) !! 0 = Some (newFileItem "sub" Collapsed ["ws"; "sub"] true) ∧
  heap (final r) !! 1 = Some (newFileItem ".git" None_ ["ws"; "sub"; ".git"] false) ∧
  heap (final r) !! 2 = Some (newFileItem "b.txt" None_ ["ws"; "sub"; "b.txt"] true) ∧
  outcome (getCheckedFiles (final r)) = inl [["ws"; "sub"; "b.txt"]].
Proof. repeat split. Qed.

Lemma refs_valid_newProvider rootPath : refs_valid (newProvider rootPath).
Proof. intros p i Hin. by apply elem_of_nil in Hin. Defined.

Lemma getFilesInDirectory_expand_witness :
  let s := newProvider (Some demo_root) in
  let entries :=
    [("a.txt", FsFile true "X");
     ("sub", FsDir true [("b.txt", FsFile true "Y")]);
     ("node_modules", FsDir true [("ignored.txt", FsFile true "I")])] in
  let r1 := getFilesInDirectory demo_disk demo_root s in
  let r2 := getFilesInDirectory demo_disk demo_root (final r1) in
  (refs_valid s ∧
   readdir_node (resolve demo_disk demo_root) demo_root = inl entries) ∧
  ∃ refs1 refs2,
    outcome r1 = inl refs1 ∧
    outcome r2 = inl refs2 ∧
    Forall2 (λ e i, ∃ it,
        heap (final r1) !! i = Some it ∧
        label it = e.1 ∧
        filePath it = Path.join demo_root e.1 ∧
        collapsibleState it = kind_of e.2 ∧
        match JsMap.get (filePath it) (items s) with
        | None => isChecked it = false
        | Some old => ∀ o, heap s !! old = Some o → isChecked it = isChecked o
        end)
      (List.filter listed entries) refs1 ∧
    (λ i, (λ it, (filePath it, isChecked it)) <$> heap (final r2) !! i) <$> refs2 =
    (λ i, (λ it, (filePath it, isChecked it)) <$> heap (final r1) !! i) <$> refs1.
Proof.
  intros s entries r1 r2.
  split; [split; [apply refs_valid_newProvider | reflexivity] |].
  exact (getFilesInDirectory_expand demo_disk demo_root s entries
           (refs_valid_newProvider (Some demo_root)) eq_refl).
Defined.


Lemma generateFile_no_selection_witness :
  let ui := mkUi (Some "out") (inl tt) None in
  outcome (getCheckedFiles demo_expanded) = inl [] ∧
  generateFile demo_disk ui demo_expanded =
    mkRun (inl tt) demo_expanded [ShowWarningMessage "No files selected!"] [].
Proof.
  intros ui. split; [reflexivity |].
  exact (generateFile_no_selection demo_disk ui demo_expanded eq_refl).
Defined.



Lemma toggleCheck_involution_witness :
  let it := newFileItem "sub" Collapsed ["ws"; "sub"] false in
  let r1 := toggleCheck demo_disk 1 demo_expanded in
  let r2 := toggleCheck demo_disk 1 (final r1) in
  heap demo_expanded !! 1 = Some it ∧
  isChecked <$> heap (final r1) !! 1 = Some (negb (isChecked it)) ∧
  isChecked <$> heap (final r2) !! 1 = Some (isChecked it).
Proof.
  intros it r1 r2. split; [reflexivity |].
  exact (toggleCheck_involution demo_disk demo_disk demo_expanded 1 it eq_refl).
Defined.

Lemma toggleCheck_file_frame_witness :
  let it := newFileItem "a.txt" None_ ["ws"; "a.txt"] false in
  let r := toggleCheck demo_disk 0 demo_expanded in
  (heap demo_expanded !! 0 = Some it ∧ collapsibleState it = None_) ∧
  trace r = [Refresh] ∧
  items (final r) = items demo_expanded ∧
  (∀ j, j ≠ 0 → heap (final r) !! j = heap demo_expanded !! j).
Proof.
  intros it r. split; [split; reflexivity |].
  destruct (toggleCheck_file_frame demo_disk demo_expanded 0 it eq_refl eq_refl)
    as (_ & Htrace & _ & Hitems & _ & _ & _ & Hothers & _).
  exact (conj Htrace (conj Hitems Hothers)).
Defined.

(** * Further properties of the methods *)

(** ** The map after a run of [this.items.set] *)

Lemma set_all_cons kv l (m : JsMap.t) :
  set_all (kv :: l) m = set_all l (JsMap.set kv.1 kv.2 m).
Proof. reflexivity. Qed.

Lemma JsMap_keys_set_NoDup k v (m : JsMap.t) :
  NoDup (JsMap.keys m) → NoDup (JsMap.keys (JsMap.set k v m)).
Proof.
  intros Hm. rewrite JsMap_keys_set. case_decide as Hk; [done |].
  apply NoDup_app. split; [done |]. split.
  - intros x Hx ->%list_elem_of_singleton. done.
  - apply NoDup_singleton.
Qed.

Lemma JsMap_keys_set_prefix k v (m : JsMap.t) :
  JsMap.keys m `prefix_of` JsMap.keys (JsMap.set k v m).
Proof.
  rewrite JsMap_keys_set. case_decide; [done |]. by apply prefix_app_r.
Qed.

Lemma JsMap_keys_set_elem_of k v p (m : JsMap.t) :
  p ∈ JsMap.keys (JsMap.set k v m) → p = k ∨ p ∈ JsMap.keys m.
Proof.
  rewrite JsMap_keys_set. case_decide; [by right |].
  intros [? | ->%list_elem_of_singleton]%elem_of_app; [by right | by left].
Qed.

(** With distinct keys, [set] replaces the one binding of its key. *)
Lemma JsMap_set_elem_of_unique k v p i (m : JsMap.t) :
  NoDup (JsMap.keys m) →
  (p, i) ∈ JsMap.set k v m → (p = k ∧ i = v) ∨ ((p, i) ∈ m ∧ p ≠ k).
Proof.
  unfold JsMap.keys.
  induction m as [| [k' v'] rest IH]; cbn [JsMap.set fmap list_fmap fst].
  - intros _ [= -> ->]%list_elem_of_singleton. by left.
  - intros [Hfresh Hrest]%NoDup_cons.
    destruct (decide (k' = k)) as [-> | Hk].
    + intros [[= -> ->] | Hin]%elem_of_cons; [by left |].
      right. split; [apply elem_of_cons; by right |].
      intros ->. apply Hfresh. by apply (list_elem_of_fmap_2 fst _ (k, i)).
    + intros [[= -> ->] | Hin]%elem_of_cons.
      * right. split; [apply elem_of_cons; by left | done].
      * destruct (IH Hrest Hin) as [? | [? ?]]; [by left |].
        right. split; [apply elem_of_cons; by right | done].
Qed.

Lemma set_all_keys_NoDup l (m : JsMap.t) :
  NoDup (JsMap.keys m) → NoDup (JsMap.keys (set_all l m)).
Proof.
  revert m. induction l as [| kv l IH]; intros m Hm; [done |].
  rewrite set_all_cons. by apply IH, JsMap_keys_set_NoDup.
Qed.

Lemma set_all_keys_prefix l (m : JsMap.t) :
  JsMap.keys m `prefix_of` JsMap.keys (set_all l m).
Proof.
  revert m. induction l as [| kv l IH]; intros m; [done |].
  rewrite set_all_cons. etrans; [apply JsMap_keys_set_prefix | apply IH].
Qed.

Lemma set_all_keys_elem_of l (m : JsMap.t) p :
  p ∈ JsMap.keys (set_all l m) → p ∈ JsMap.keys m ∨ p ∈ l.*1.
Proof.
  revert m. induction l as [| [k v] l IH]; intros m; [by left |].
  rewrite set_all_cons. intros [Hm | Hl]%IH.
  - apply JsMap_keys_set_elem_of in Hm as [-> | Hm]; [| by left].
    right. apply elem_of_cons. by left.
  - right. apply elem_of_cons. by right.
Qed.

Lemma set_all_get_other l (m : JsMap.t) p :
  p ∉ l.*1 → JsMap.get p (set_all l m) = JsMap.get p m.
Proof.
  revert m. induction l as [| [k v] l IH]; intros m Hp; [done |].
  cbn [fmap list_fmap fst] in Hp. apply not_elem_of_cons in Hp as [Hk Hl].
  rewrite set_all_cons, IH by done. cbn [fst snd].
  rewrite JsMap_get_set. by rewrite decide_False.
Qed.

Lemma set_all_get l (m : JsMap.t) p i :
  NoDup l.*1 → (p, i) ∈ l → JsMap.get p (set_all l m) = Some i.
Proof.
  revert m. induction l as [| [k v] l IH]; intros m Hl Hin.
  - by apply elem_of_nil in Hin.
  - cbn [fmap list_fmap fst] in Hl. apply NoDup_cons in Hl as [Hfresh Hl].
    rewrite set_all_cons. apply elem_of_cons in Hin as [[= -> ->] | Hin].
    + rewrite set_all_get_other by done. cbn [fst snd].
      rewrite JsMap_get_set. by rewrite decide_True.
    + by apply IH.
Qed.

Lemma set_all_elem_of l (m : JsMap.t) p i :
  (p, i) ∈ set_all l m → (p, i) ∈ l ∨ (p, i) ∈ m.
Proof.
  revert m. induction l as [| [k v] l IH]; intros m; [by right |].
  rewrite set_all_cons. intros [Hl | Hm]%IH.
  - left. apply elem_of_cons. by right.
  - apply JsMap_set_elem_of in Hm as [[-> ->] | Hm]; [| by right].
    left. apply elem_of_cons. by left.
Qed.

Lemma set_all_elem_of_unique l (m : JsMap.t) p i :
  NoDup (JsMap.keys m) →
  (p, i) ∈ set_all l m → (p, i) ∈ l ∨ ((p, i) ∈ m ∧ p ∉ l.*1).
Proof.
  revert m. induction l as [| [k v] l IH]; intros m Hm.
  - intros Hin. right. split; [done | apply not_elem_of_nil].
  - rewrite set_all_cons. cbn [fst snd].
    intros [Hl | [Hin Hp]]%IH; [| | by apply JsMap_keys_set_NoDup].
    + left. apply elem_of_cons. by right.
    + apply JsMap_set_elem_of_unique in Hin as [[-> ->] | [Hin Hne]]; [| | done].
      * left. apply elem_of_cons. by left.
      * right. split; [done |]. cbn [fmap list_fmap fst].
        by apply not_elem_of_cons.
Qed.

(** ** [getFilesInDirectory]: what it registers *)

Lemma listed_skip name node rest :
  isDirectory node && ignored_name name = true →
  List.filter listed ((name, node) :: rest) = List.filter listed rest.
Proof. intros Hskip. cbn [List.filter]. unfold listed at 1. cbn [fst snd]. by rewrite Hskip. Qed.

Lemma listed_keep name node rest :
  isDirectory node && ignored_name name = false →
  List.filter listed ((name, node) :: rest) = (name, node) :: List.filter listed rest.
Proof. intros Hskip. cbn [List.filter]. unfold listed at 1. cbn [fst snd]. by rewrite Hskip. Qed.

(** The loop in closed form: the items returned are the next free
    references in order, the map has been [set] at each listed path in
    turn, and the heap has grown by one object per listed entry. *)
Lemma getFilesInDirectory_loop_closed dirPath entries :
  ∀ acc s,
    let r := getFilesInDirectory_loop dirPath entries acc s in
    let n := length (heap s) in
    let k := length (List.filter listed entries) in
    outcome r = inl (acc ++ seq n k) ∧
    trace r = [] ∧
    unhandled r = [] ∧
    allChecked (final r) = allChecked s ∧
    workspaceRoot (final r) = workspaceRoot s ∧
    items (final r) = set_all (zip (listed_paths dirPath entries) (seq n k)) (items s) ∧
    ∃ new, heap (final r) = heap s ++ new ∧ length new = k.
Proof.
  unfold listed_paths.
  induction entries as [| [name node] rest IH]; intros acc s.
  - cbn. rewrite app_nil_r. repeat split. exists []. by rewrite app_nil_r.
  - destruct (isDirectory node && ignored_name name) eqn:Hskip.
    + rewrite (listed_skip _ _ _ Hskip).
      cbn [getFilesInDirectory_loop]. rewrite Hskip. apply IH.
    + rewrite (listed_keep _ _ _ Hskip).
      set (filePath := Path.join dirPath name).
      set (it := newFileItem name (kind_of node) filePath (knownChecked s filePath)).
      assert (Hrun : getFilesInDirectory_loop dirPath ((name, node) :: rest) acc s =
                let r' := getFilesInDirectory_loop dirPath rest
                            (acc ++ [length (heap s)]) (register filePath it s) in
                mkRun (outcome r') (final r') (trace r') (unhandled r')).
      { cbn [getFilesInDirectory_loop]. rewrite Hskip. subst it. unfold kind_of.
        destruct (isDirectory node); apply register_step. }
      rewrite Hrun. cbn zeta. cbn [outcome final trace unhandled].
      destruct (IH (acc ++ [length (heap s)]) (register filePath it s))
        as (Hout & Htr & Hun & Hflag & Hroot & Hitems & new & Hheap & Hlen).
      cbn zeta in Hout, Hitems.
      cbn [register heap items allChecked workspaceRoot]
        in Hout, Hitems, Hheap, Hflag, Hroot.
      rewrite length_app in Hout, Hitems. cbn [length] in Hout, Hitems.
      replace (length (heap s) + 1) with (S (length (heap s))) in Hout, Hitems by lia.
      cbn [length seq fmap list_fmap zip zip_with fst].
      split; [| split; [done | split; [done | split; [done | split; [done | split]]]]].
      * rewrite Hout. by rewrite <- app_assoc.
      * rewrite Hitems. by rewrite set_all_cons.
      * exists (it :: new). rewrite Hheap, <- app_assoc. cbn [length].
        split; [done | by rewrite Hlen].
Qed.

Lemma getFilesInDirectory_closed disk dirPath s entries :
  readdir_node (resolve disk dirPath) dirPath = inl entries →
  let r := getFilesInDirectory disk dirPath s in
  let n := length (heap s) in
  let k := length (List.filter listed entries) in
  outcome r = inl (seq n k) ∧
  trace r = [ReadDir dirPath] ∧
  unhandled r = [] ∧
  allChecked (final r) = allChecked s ∧
  workspaceRoot (final r) = workspaceRoot s ∧
  items (final r) = set_all (zip (listed_paths dirPath entries) (seq n k)) (items s) ∧
  ∃ new, heap (final r) = heap s ++ new ∧ length new = k.
Proof.
  intros Hdir r n k.
  destruct (getFilesInDirectory_loop_closed dirPath entries [] s)
    as (Hout & Htr & Hun & Hrest).
  subst r. unfold getFilesInDirectory, mbind, Js_bind, emit. rewrite Hdir.
  cbn [outcome final trace unhandled settle mret Js_ret].
  cbn zeta in Hout, Htr, Hun, Hrest. rewrite Hout, Htr, Hun.
  cbn [outcome final trace unhandled app].
  split; [done | split; [done | split; [done | exact Hrest]]].
Qed.

Lemma listed_elem_of e entries : e ∈ List.filter listed entries → e ∈ entries.
Proof.
  induction entries as [| e' rest IH]; cbn [List.filter]; [done |].
  destruct (listed e').
  - intros [-> | Hin]%elem_of_cons; apply elem_of_cons; [by left | right; by apply IH].
  - intros Hin. apply elem_of_cons. right. by apply IH.
Qed.

Lemma NoDup_listed_names (entries : list (string * FsTree)) :
  NoDup entries.*1 → NoDup (List.filter listed entries).*1.
Proof.
  induction entries as [| [name node] rest IH]; cbn [List.filter fmap list_fmap fst];
    [done |].
  intros [Hfresh Hrest]%NoDup_cons.
  destruct (listed (name, node)); [| by apply IH].
  cbn [fmap list_fmap fst]. apply NoDup_cons. split; [| by apply IH].
  intros ([n t] & -> & Hin%listed_elem_of)%list_elem_of_fmap.
  apply Hfresh. by apply (list_elem_of_fmap_2 fst _ (n, t)).
Qed.

Lemma NoDup_listed_paths dirPath (entries : list (string * FsTree)) :
  NoDup entries.*1 → NoDup (listed_paths dirPath entries).
Proof.
  intros Hnames%NoDup_listed_names. unfold listed_paths.
  assert (Heq : (λ e : string * FsTree, Path.join dirPath e.1) <$> List.filter listed entries
                = Path.join dirPath <$> (List.filter listed entries).*1).
  { by rewrite <- list_fmap_compose. }
  rewrite Heq. apply NoDup_fmap_2; [| done].
  intros n n' Hjoin. unfold Path.join in Hjoin.
  apply app_inv_head in Hjoin. by injection Hjoin.
Qed.

Lemma length_listed_paths dirPath entries :
  length (listed_paths dirPath entries) = length (List.filter listed entries).
Proof. unfold listed_paths. apply length_fmap. Qed.

Lemma fst_zip_listed dirPath entries n :
  (zip (listed_paths dirPath entries)
       (seq n (length (List.filter listed entries)))).*1
  = listed_paths dirPath entries.
Proof. apply fst_zip. by rewrite length_listed_paths, length_seq. Qed.

(** X1. When the directory of a [getChildren] call cannot be listed, the
    call rejects with the error of [readdir]; no object is created and the
    state is the one the call started from. *)
Theorem getChildren_unreadable disk element s root dirPath e :
  workspaceRoot s = Some root →
  match element with
  | Some item => filePath <$> heap s !! item
  | None => Some root
  end = Some dirPath →
  readdir_node (resolve disk dirPath) dirPath = inr e →
  getChildren disk element s = mkRun (inr e) s [ReadDir dirPath] [].
Proof.
  intros Hroot Hdir Hfail.
  unfold getChildren, mbind, Js_bind, get_state.
  cbn [outcome final trace unhandled]. rewrite Hroot.
  destruct element as [item |].
  - unfold deref. destruct (heap s !! item) as [it |]; [| done].
    injection Hdir as <-. cbn [outcome final trace unhandled].
    unfold getFilesInDirectory, mbind, Js_bind, emit.
    cbn [outcome final trace unhandled]. by rewrite Hfail.
  - injection Hdir as <-.
    unfold getFilesInDirectory, mbind, Js_bind, emit.
    cbn [outcome final trace unhandled]. by rewrite Hfail.
Qed.

(** X2. After [getFilesInDirectory] has listed a directory whose names are
    distinct, the map holds at the path of each listed entry the very item
    that the call returns for it. *)
Theorem getFilesInDirectory_registers disk dirPath s entries :
  NoDup entries.*1 →
  readdir_node (resolve disk dirPath) dirPath = inl entries →
  let r := getFilesInDirectory disk dirPath s in
  ∃ refs,
    outcome r = inl refs ∧
    length refs = length (List.filter listed entries) ∧
    ∀ j e i,
      List.filter listed entries !! j = Some e →
      refs !! j = Some i →
      JsMap.get (Path.join dirPath e.1) (items (final r)) = Some i.
Proof.
  intros Hnames Hdir r.
  destruct (getFilesInDirectory_closed disk dirPath s entries Hdir)
    as (Hout & _ & _ & _ & _ & Hitems & _).
  fold r in Hout, Hitems.
  eexists. split; [exact Hout |]. split; [by rewrite length_seq |].
  intros j e i He Hi. rewrite Hitems.
  apply set_all_get.
  - rewrite fst_zip_listed. by apply NoDup_listed_paths.
  - apply (list_elem_of_lookup_2 _ j). apply lookup_zip_Some. split; [| done].
    unfold listed_paths. by rewrite list_lookup_fmap, He.
Qed.

(** X3. Listing a directory leaves the rest of the map alone: the keys
    that were there keep their places at the front of the iteration order,
    every other key is the path of a listed entry, and a path that is not
    listed is looked up as before. *)
Theorem getFilesInDirectory_map_frame disk dirPath s entries :
  readdir_node (resolve disk dirPath) dirPath = inl entries →
  let r := getFilesInDirectory disk dirPath s in
  JsMap.keys (items s) `prefix_of` JsMap.keys (items (final r)) ∧
  (∀ p, p ∈ JsMap.keys (items (final r)) →
        p ∈ JsMap.keys (items s) ∨ p ∈ listed_paths dirPath entries) ∧
  (∀ p, p ∉ listed_paths dirPath entries →
        JsMap.get p (items (final r)) = JsMap.get p (items s)).
Proof.
  intros Hdir r.
  destruct (getFilesInDirectory_closed disk dirPath s entries Hdir)
    as (_ & _ & _ & _ & _ & Hitems & _).
  fold r in Hitems. rewrite Hitems. split; [| split].
  - apply set_all_keys_prefix.
  - intros p Hp. apply set_all_keys_elem_of in Hp.
    by rewrite fst_zip_listed in Hp.
  - intros p Hp. apply set_all_get_other. by rewrite fst_zip_listed.
Qed.

Lemma getFilesInDirectory_loop_keep dirPath name node rest acc s :
  isDirectory node && ignored_name name = false →
  getFilesInDirectory_loop dirPath ((name, node) :: rest) acc s =
    let filePath := Path.join dirPath name in
    let r' := getFilesInDirectory_loop dirPath rest (acc ++ [length (heap s)])
                (register filePath
                   (newFileItem name (kind_of node) filePath (knownChecked s filePath))
                   s) in
    mkRun (outcome r') (final r') (trace r') (unhandled r').
Proof.
  intros Hskip. cbn [getFilesInDirectory_loop]. rewrite Hskip. unfold kind_of.
  destruct (isDirectory node); apply register_step.
Qed.

(** The objects that the loop creates: one per listed entry, in order,
    each with the name, the path and the kind of its entry. *)
Lemma getFilesInDirectory_loop_objects dirPath entries :
  ∀ acc s,
    let r := getFilesInDirectory_loop dirPath entries acc s in
    Forall2 (λ e i, ∃ it,
        heap (final r) !! i = Some it ∧
        label it = e.1 ∧
        filePath it = Path.join dirPath e.1 ∧
        collapsibleState it = kind_of e.2)
      (List.filter listed entries)
      (seq (length (heap s)) (length (List.filter listed entries))).
Proof.
  induction entries as [| [name node] rest IH]; intros acc s; [constructor |].
  destruct (isDirectory node && ignored_name name) eqn:Hskip.
  - rewrite (listed_skip _ _ _ Hskip).
    cbn [getFilesInDirectory_loop]. rewrite Hskip. apply IH.
  - rewrite (listed_keep _ _ _ Hskip), (getFilesInDirectory_loop_keep _ _ _ _ _ _ Hskip).
    cbn zeta. cbn [final length seq].
    set (filePath := Path.join dirPath name).
    set (it := newFileItem name (kind_of node) filePath (knownChecked s filePath)).
    destruct (getFilesInDirectory_loop_closed dirPath rest
                (acc ++ [length (heap s)]) (register filePath it s))
      as (_ & _ & _ & _ & _ & _ & new & Hheap & _).
    specialize (IH (acc ++ [length (heap s)]) (register filePath it s)).
    cbn zeta in IH. cbn [register heap] in IH, Hheap.
    rewrite length_app in IH. cbn [length] in IH.
    replace (length (heap s) + 1) with (S (length (heap s))) in IH by lia.
    constructor; [| exact IH].
    exists it. split; [| done].
    rewrite Hheap, <- app_assoc. by apply list_lookup_middle.
Qed.

(** X4. Listing a directory creates one object per listed entry and
    modifies none: the objects of the heap are where they were and as they
    were; the items returned are, entry by entry in the order of the
    listing, distinct objects that did not exist before, each with the
    name, the path and the kind of its entry; the heap has grown by exactly
    that many objects; and the one call to the host is the [readdir] of the
    directory. *)
Theorem getFilesInDirectory_allocates disk dirPath s entries :
  readdir_node (resolve disk dirPath) dirPath = inl entries →
  let r := getFilesInDirectory disk dirPath s in
  trace r = [ReadDir dirPath] ∧
  (∀ i it, heap s !! i = Some it → heap (final r) !! i = Some it) ∧
  ∃ refs,
    outcome r = inl refs ∧
    NoDup refs ∧
    length (heap (final r)) = length (heap s) + length (List.filter listed entries) ∧
    (∀ i, i ∈ refs → heap s !! i = None) ∧
    Forall2 (λ e i, ∃ it,
        heap (final r) !! i = Some it ∧
        label it = e.1 ∧
        filePath it = Path.join dirPath e.1 ∧
        collapsibleState it = kind_of e.2)
      (List.filter listed entries) refs.
Proof.
  intros Hdir r.
  destruct (getFilesInDirectory_closed disk dirPath s entries Hdir)
    as (Hout & Htr & _ & _ & _ & _ & new & Hheap & Hlen).
  fold r in Hout, Htr, Hheap.
  pose proof (getFilesInDirectory_loop_objects dirPath entries [] s) as Hobjects.
  assert (Hfinal : final r = final (getFilesInDirectory_loop dirPath entries [] s)).
  { subst r. unfold getFilesInDirectory. rewrite !bind_eq.
    cbn [emit outcome final trace unhandled]. rewrite Hdir.
    cbn [settle mret Js_ret outcome final trace unhandled]. reflexivity. }
  cbn zeta in Hobjects. rewrite <- Hfinal in Hobjects.
  split; [exact Htr |]. split.
  { intros i it Hi. rewrite Hheap. by apply lookup_app_l_Some. }
  eexists. split; [exact Hout |]. split; [apply NoDup_seq |]. split.
  { by rewrite Hheap, length_app, Hlen. }
  split; [| exact Hobjects].
  intros i [Hlo Hhi]%elem_of_seq. apply lookup_ge_None. lia.
Qed.

(** ** Items that the map no longer holds *)

(** X5. Listing a directory a second time replaces in the map every item
    that the first listing returned: none of them is a value of the map
    afterwards. *)
Theorem getFilesInDirectory_supersedes disk dirPath s entries :
  refs_valid s →
  keys_unique s →
  readdir_node (resolve disk dirPath) dirPath = inl entries →
  let r1 := getFilesInDirectory disk dirPath s in
  let r2 := getFilesInDirectory disk dirPath (final r1) in
  ∃ refs1,
    outcome r1 = inl refs1 ∧
    length refs1 = length (List.filter listed entries) ∧
    ∀ i, i ∈ refs1 → i ∉ JsMap.values (items (final r2)).
Proof.
  intros Hvalid Hkeys Hdir r1 r2.
  destruct (getFilesInDirectory_closed disk dirPath s entries Hdir)
    as (Hout1 & _ & _ & _ & _ & Hitems1 & new1 & Hheap1 & Hlen1).
  fold r1 in Hout1, Hitems1, Hheap1.
  destruct (getFilesInDirectory_closed disk dirPath (final r1) entries Hdir)
    as (_ & _ & _ & _ & _ & Hitems2 & _).
  fold r2 in Hitems2.
  set (n := length (heap s)) in *.
  set (k := length (List.filter listed entries)) in *.
  assert (Hn1 : length (heap (final r1)) = n + k).
  { by rewrite Hheap1, length_app, Hlen1. }
  rewrite Hn1 in Hitems2.
  eexists. split; [exact Hout1 |]. split; [by rewrite length_seq |].
  intros i [Hlo Hhi]%elem_of_seq ([p i'] & Hi & Hin)%list_elem_of_fmap.
  cbn [snd] in Hi. subst i'.
  rewrite Hitems2 in Hin.
  apply set_all_elem_of_unique in Hin as [Hnew | [Hold Hp]].
  - apply elem_of_zip_r, elem_of_seq in Hnew. lia.
  - rewrite fst_zip_listed in Hp. rewrite Hitems1 in Hold.
    apply set_all_elem_of in Hold as [Hfirst | Hs].
    + apply elem_of_zip_l in Hfirst. done.
    + apply Hvalid in Hs. fold n in Hs. lia.
  - rewrite Hitems1. by apply set_all_keys_NoDup.
Qed.

Lemma getCheckedFiles_loop_ext h h' (m : JsMap.t) :
  (∀ i, i ∈ JsMap.values m → h' !! i = h !! i) →
  getCheckedFiles_loop h' m = getCheckedFiles_loop h m.
Proof.
  unfold JsMap.values.
  induction m as [| [p item] rest IH]; intros Hsame; [done |].
  cbn [getCheckedFiles_loop].
  rewrite (Hsame item) by (apply elem_of_cons; by left).
  rewrite IH; [done |].
  intros i Hi. apply Hsame. cbn [fmap list_fmap]. apply elem_of_cons. by right.
Qed.

(** X6. Toggling a file item that the map does not hold changes nothing
    that the provider reads afterwards: [getCheckedFiles] returns what it
    returned before, and every path is looked up with the checked value it
    had. *)
Theorem toggleCheck_stale_file_ignored disk s item it :
  heap s !! item = Some it →
  collapsibleState it = None_ →
  item ∉ JsMap.values (items s) →
  let r := toggleCheck disk item s in
  outcome (getCheckedFiles (final r)) = outcome (getCheckedFiles s) ∧
  ∀ p, knownChecked (final r) p = knownChecked s p.
Proof.
  intros Hit Hkind Hstale r. subst r.
  rewrite (toggleCheck_file_run disk item s it Hit Hkind).
  rewrite !getCheckedFiles_run. cbn [outcome final with_heap heap items].
  assert (Hsame : ∀ i, i ∈ JsMap.values (items s) →
            alter (setChecked (negb (isChecked it))) item (heap s) !! i = heap s !! i).
  { intros i Hi. apply list_lookup_alter_ne. by intros ->. }
  split.
  - f_equal. by apply getCheckedFiles_loop_ext.
  - intros p. unfold knownChecked. cbn [final with_heap items heap].
    destruct (JsMap.get p (items s)) as [i |] eqn:Hget; [| done].
    rewrite Hsame; [done |].
    apply JsMap_get_elem_of in Hget.
    by apply (list_elem_of_fmap_2 snd _ (p, i)).
Qed.

(** X7. Toggling a file item that the map holds at its own path moves
    that path in or out of [getCheckedFiles] and no other path: the path
    is listed afterwards exactly when the item was unchecked, and any other
    path is listed exactly when it was. *)
Theorem toggleCheck_file_checkedFiles disk s item it :
  provider_inv s →
  heap s !! item = Some it →
  collapsibleState it = None_ →
  JsMap.get (filePath it) (items s) = Some item →
  let r := toggleCheck disk item s in
  let before := getCheckedFiles_loop (heap s) (items s) in
  let after := getCheckedFiles_loop (heap (final r)) (items (final r)) in
  (filePath it ∈ after ↔ isChecked it = false) ∧
  (∀ q, q ≠ filePath it → (q ∈ after ↔ q ∈ before)).
Proof.
  intros (Hkeys & Hkeyed & _) Hit Hkind Hget r before after.
  subst r before after.
  rewrite (toggleCheck_file_run disk item s it Hit Hkind).
  cbn [final with_heap heap items].
  assert (Hheld : ∀ q, (q, item) ∈ items s → q = filePath it).
  { intros q Hq. destruct (Hkeyed q item Hq) as (it' & Hit' & <-). congruence. }
  assert (Honly : ∀ i, (filePath it, i) ∈ items s → i = item).
  { intros i Hi. unfold keys_unique, JsMap.keys in Hkeys. clear -Hkeys Hget Hi.
    induction (items s) as [| [k v] rest IH]; [by apply elem_of_nil in Hi |].
    cbn [fmap list_fmap fst] in Hkeys. apply NoDup_cons in Hkeys as [Hfresh Hrest].
    cbn [JsMap.get] in Hget. case_decide as Hk.
    - injection Hget as ->. subst k.
      apply elem_of_cons in Hi as [[= ->] | Hi]; [done |].
      exfalso. apply Hfresh. by apply (list_elem_of_fmap_2 fst _ (filePath it, i)).
    - apply elem_of_cons in Hi as [[= <- <-] | Hi]; [done | by apply IH]. }
  split.
  - rewrite getCheckedFiles_loop_elem_of. split.
    + intros (i & it' & Hin & Hi & Hc & _).
      apply Honly in Hin. subst i.
      rewrite list_lookup_alter_eq, Hit in Hi. injection Hi as <-.
      cbn [setChecked isChecked] in Hc. by destruct (isChecked it).
    + intros Hc. exists item, (setChecked (negb (isChecked it)) it).
      split; [by apply JsMap_get_elem_of |]. split.
      * by rewrite list_lookup_alter_eq, Hit.
      * cbn [setChecked isChecked collapsibleState]. by rewrite Hc.
  - intros q Hq. rewrite !getCheckedFiles_loop_elem_of.
    split; intros (i & it' & Hin & Hi & Hrest); exists i, it';
      (split; [done |]); (split; [| done]).
    + rewrite list_lookup_alter_ne in Hi; [done |].
      intros <-. by apply Hq, Hheld.
    + rewrite list_lookup_alter_ne; [done |].
      intros <-. by apply Hq, Hheld.
Qed.

(** ** What every method keeps true *)

Lemma provider_inv_newProvider rootPath : provider_inv (newProvider rootPath).
Proof.
  split; [| split].
  - apply NoDup_nil_2.
  - intros p i Hin. by apply elem_of_nil in Hin.
  - intros i it Hi. by destruct i.
Defined.

Lemma provider_inv_refs_valid s : provider_inv s → refs_valid s.
Proof.
  intros (_ & Hkeyed & _) p i Hin.
  destruct (Hkeyed p i Hin) as (it & Hit & _).
  by apply lookup_lt_Some in Hit.
Qed.

Lemma provider_inv_register name kind filePath checked s :
  provider_inv s →
  provider_inv (register filePath (newFileItem name kind filePath checked) s).
Proof.
  intros (Hkeys & Hkeyed & Hbox). split; [| split].
  - by apply JsMap_keys_set_NoDup.
  - intros p i [[-> ->] | Hin]%JsMap_set_elem_of; cbn [register heap].
    + eexists. split; [apply list_lookup_middle; done | done].
    + destruct (Hkeyed p i Hin) as (it & Hit & Hpath).
      exists it. split; [by apply lookup_app_l_Some | done].
  - intros i it. cbn [register heap].
    intros [Hold | [_ Hnew]]%lookup_app_Some; [by eapply Hbox |].
    apply list_lookup_singleton_Some in Hnew as [_ <-]. done.
Qed.

Lemma provider_inv_getFilesInDirectory_loop dirPath entries :
  ∀ acc s, provider_inv s →
    provider_inv (final (getFilesInDirectory_loop dirPath entries acc s)).
Proof.
  induction entries as [| [name node] rest IH]; intros acc s Hinv; [done |].
  cbn [getFilesInDirectory_loop].
  destruct (isDirectory node && ignored_name name); [by apply IH |].
  destruct (isDirectory node); rewrite register_step; cbn zeta; cbn [final];
    by apply IH, provider_inv_register.
Qed.

Lemma provider_inv_getFilesInDirectory disk dirPath s :
  provider_inv s → provider_inv (final (getFilesInDirectory disk dirPath s)).
Proof.
  intros Hinv. unfold getFilesInDirectory, mbind, Js_bind, emit.
  cbn [outcome final trace unhandled].
  destruct (readdir_node (resolve disk dirPath) dirPath) as [entries | e];
    cbn [settle mret Js_ret throw outcome final trace unhandled]; [| done].
  by apply provider_inv_getFilesInDirectory_loop.
Qed.

Lemma provider_inv_mark checked T s s' :
  provider_inv s →
  items s' = items s →
  heap s' = mark checked T (heap s) →
  provider_inv s'.
Proof.
  intros (Hkeys & Hkeyed & Hbox) Hitems Hheap.
  unfold provider_inv, keys_unique, keyed_by_path, checkbox_coherent.
  rewrite Hitems, Hheap. split; [done | split].
  - intros p i Hin. destruct (Hkeyed p i Hin) as (it & Hit & Hpath).
    rewrite mark_lookup, Hit. case_decide; eexists; (split; [done |]); done.
  - intros i it'. rewrite mark_lookup.
    destruct (heap s !! i) as [it |] eqn:Hit; case_decide; try done.
    + intros [= <-]. done.
    + intros [= <-]. by eapply Hbox.
Qed.

(** Whatever the item and the disk, [toggleCheck] only sets flags on
    objects of the heap. *)
Lemma toggleCheck_final disk item s :
  ∃ checked T, final (toggleCheck disk item s)
               = with_heap s (mark checked T (heap s)).
Proof.
  destruct (heap s !! item) as [it |] eqn:Hit.
  - destruct (decide (collapsibleState it = None_)) as [Hkind | Hkind].
    + exists (negb (isChecked it)), [item].
      by rewrite (toggleCheck_file_run disk item s it Hit Hkind).
    + destruct (toggleCheck_directory_run disk item s it Hit Hkind)
        as (_ & _ & _ & T & Hfin & _).
      by exists (negb (isChecked it)), (item :: T).
  - exists false, []. unfold toggleCheck, mbind, Js_bind, deref. rewrite Hit.
    cbn [outcome final]. by rewrite mark_nil, with_heap_id.
Qed.

Lemma readFiles_final disk root files :
  ∀ output s, final (readFiles disk root files output s) = s.
Proof.
  induction files as [| file rest IH]; intros output s; [done |].
  cbn [readFiles]. unfold mbind, Js_bind, emit. cbn [outcome final trace unhandled].
  destruct (readFile_node (resolve disk file) file) as [content | e];
    cbn [settle mret Js_ret throw outcome final trace unhandled]; [| done].
  cbn zeta. cbn [final]. apply IH.
Qed.

Lemma readFiles_unhandled disk root files :
  ∀ output s, unhandled (readFiles disk root files output s) = [].
Proof.
  induction files as [| file rest IH]; intros output s; [done |].
  cbn [readFiles]. unfold mbind, Js_bind, emit. cbn [outcome final trace unhandled].
  destruct (readFile_node (resolve disk file) file) as [content | e];
    cbn [settle mret Js_ret throw outcome final trace unhandled]; [| done].
  cbn zeta. cbn [unhandled app]. apply IH.
Qed.

(** ** [generateFile]: the other ways it ends *)

Lemma quiet_weaken {A} (P Q : A + Error → Prop) (m : Js A) s :
  (∀ o, P o → Q o) → quiet P m s → quiet Q m s.
Proof. intros HPQ (o & tr & Hm & Ho). exists o, tr. auto. Qed.

Lemma quiet_emit eff s : quiet (λ o, o = inl tt) (emit eff) s.
Proof. by eexists _, _. Qed.

Lemma quiet_ret {A} (a : A) s : quiet (λ o, o = inl a) (mret a : Js A) s.
Proof. by eexists _, _. Qed.

Lemma quiet_settle {A} (r : A + Error) s : quiet (λ _, True) (settle r) s.
Proof. destruct r; by eexists _, _. Qed.

Lemma quiet_bind_ok {A B} (P : B + Error → Prop) (m : Js A) (f : A → Js B) s a :
  quiet (λ o, o = inl a) m s → quiet P (f a) s → quiet P (m ≫= f) s.
Proof.
  intros (o & tr & Hm & ->) (o' & tr' & Hf & Ho').
  exists o', (tr ++ tr'). rewrite bind_eq, Hm.
  cbn [outcome final trace unhandled]. rewrite Hf. done.
Qed.

Lemma quiet_bind_any {A B} (m : Js A) (f : A → Js B) s :
  quiet (λ _, True) m s →
  (∀ a, quiet (λ _, True) (f a) s) →
  quiet (λ _, True) (m ≫= f) s.
Proof.
  intros (o & tr & Hm & _) Hf. unfold quiet. rewrite bind_eq, Hm.
  cbn [outcome final trace unhandled]. destruct o as [a | e].
  - destruct (Hf a) as (o' & tr' & -> & _). by eexists _, _.
  - by eexists _, _.
Qed.

Lemma quiet_try_catch (m : Js unit) (h : Error → Js unit) s :
  quiet (λ _, True) m s →
  (∀ e, quiet (λ o, o = inl tt) (h e) s) →
  quiet (λ o, o = inl tt) (try_catch m h) s.
Proof.
  intros (o & tr & Hm & _) Hh. unfold quiet. rewrite try_catch_eq, Hm.
  cbn [outcome final trace unhandled]. destruct o as [[] | e].
  - by eexists _, _.
  - destruct (Hh e) as (o' & tr' & -> & ->). by eexists _, _.
Qed.

Lemma quiet_readFiles disk root files output s :
  quiet (λ _, True) (readFiles disk root files output) s.
Proof.
  pose proof (readFiles_final disk root files output s) as Hfin.
  pose proof (readFiles_unhandled disk root files output s) as Hun.
  destruct (readFiles disk root files output s) as [o s' tr un] eqn:Hrun.
  cbn [final unhandled] in Hfin, Hun. subst s' un. by exists o, tr.
Qed.

Lemma quiet_any {A} (P : A + Error → Prop) (m : Js A) s :
  quiet P m s → quiet (λ _, True) m s.
Proof. by apply quiet_weaken. Qed.

Lemma generateFile_quiet disk ui s :
  quiet (λ o, is_Some (workspaceRoot s) → o = inl tt) (generateFile disk ui) s.
Proof.
  unfold generateFile.
  apply (quiet_bind_ok _ _ _ _ (getCheckedFiles_loop (heap s) (items s))).
  { by eexists _, _. }
  case_bool_decide as Hempty.
  { eapply quiet_weaken; [| apply quiet_emit]. auto. }
  apply (quiet_bind_ok _ _ _ _ tt); [apply quiet_emit |].
  destruct (inputBox ui) as [[| c fileName] |].
  1, 3: eapply quiet_weaken; [| apply (quiet_ret tt)]; auto.
  destruct (workspaceRoot s) as [root |] eqn:Hroot.
  - apply (quiet_bind_ok _ _ _ _ root).
    { unfold workspaceRoot_bang. unfold quiet. rewrite bind_eq.
      cbn [get_state outcome final trace unhandled]. rewrite Hroot.
      by eexists _, _. }
    eapply quiet_weaken; [| apply quiet_try_catch].
    + auto.
    + apply quiet_bind_any; [apply quiet_readFiles |]. intros output.
      apply quiet_bind_any; [eapply quiet_any, quiet_emit |]. intros _.
      apply quiet_bind_any; [apply quiet_settle |]. intros _.
      apply quiet_bind_any; [eapply quiet_any, quiet_emit |]. intros _.
      destruct (decide (informationAction ui = Some "Open File")).
      * apply quiet_bind_any; [eapply quiet_any, quiet_emit |]. intros _.
        eapply quiet_any, quiet_emit.
      * eapply quiet_any, (quiet_ret tt).
    + intros e. apply quiet_emit.
  - unfold workspaceRoot_bang. unfold quiet. rewrite !bind_eq.
    cbn [get_state outcome final trace unhandled]. rewrite Hroot.
    cbn [throw outcome final trace unhandled].
    eexists _, _. split; [reflexivity |]. by intros [? ?].
Qed.

Lemma generateFile_shape disk ui s :
  ∃ o tr, generateFile disk ui s = mkRun o s tr [] ∧
          (is_Some (workspaceRoot s) → o = inl tt).
Proof. exact (generateFile_quiet disk ui s). Qed.

(** X8. [generateFile] never changes the state of the provider and leaves
    no rejection unhandled; when the provider has a workspace root it
    returns normally whatever the disk, the user and [writeFile] answer. *)
Theorem generateFile_keeps_state disk ui s :
  let r := generateFile disk ui s in
  final r = s ∧
  unhandled r = [] ∧
  (is_Some (workspaceRoot s) → outcome r = inl tt).
Proof.
  intros r. subst r.
  destruct (generateFile_shape disk ui s) as (o & tr & -> & Hok).
  by repeat split.
Qed.

(** X9. When the input box is dismissed or left empty, [generateFile]
    stops there: the prompt is the only call to the host, so nothing is
    read and nothing is written. *)
Theorem generateFile_cancelled disk ui s :
  outcome (getCheckedFiles s) ≠ inl [] →
  inputBox ui = None ∨ inputBox ui = Some "" →
  generateFile disk ui s = mkRun (inl tt) s [ShowInputBox] [].
Proof.
  rewrite getCheckedFiles_run. cbn [outcome]. intros Hsome Hbox.
  unfold generateFile. unfold mbind at 1. unfold Js_bind at 1.
  rewrite getCheckedFiles_run. cbn [outcome final trace unhandled].
  destruct (getCheckedFiles_loop (heap s) (items s)) as [| f files]; [done |].
  rewrite bool_decide_eq_false_2 by done.
  unfold mbind, Js_bind, emit. cbn [outcome final trace unhandled].
  by destruct Hbox as [-> | ->].
Qed.

(** X10. When every checked file has been read and [writeFile] rejects,
    the error is caught: its message is shown, the success message is not,
    and no document is opened. *)
Theorem generateFile_write_failure disk ui s fileName root files contents err :
  outcome (getCheckedFiles s) = inl files →
  files ≠ [] →
  inputBox ui = Some fileName →
  fileName ≠ "" →
  workspaceRoot s = Some root →
  Forall2 (readable_as disk) files contents →
  writeFile_result ui = inr err →
  generateFile disk ui s =
    mkRun (inl tt) s
      (ShowInputBox :: (ReadFile <$> files) ++
         [WriteFile (Path.join root (fileName +:+ ".txt"))
            (document root (zip files contents));
          ShowErrorMessage ("Error generating file: " +:+ message err)])
      [].
Proof.
  intros Hfiles Hsome Hname Hne Hroot Hread Hwrite.
  rewrite (generateFile_named disk ui s fileName root files); try done.
  unfold mbind, Js_bind, emit, try_catch. cbn [outcome final trace unhandled].
  rewrite (readFiles_ok disk root files contents Hread).
  cbn [outcome final trace unhandled app]. rewrite Hwrite.
  cbn [settle throw outcome final trace unhandled app].
  by rewrite <- !app_assoc.
Qed.

(** X11. When every checked file has been read and [writeFile] succeeds,
    the run is: the prompt, one read per checked file in order, the write
    of the document to [<root>/<name>.txt], and the success message.  It
    ends there unless the user picks [Open File], in which case the next
    call asks the host to open the file just written. *)
Theorem generateFile_success disk ui s fileName root files contents :
  outcome (getCheckedFiles s) = inl files →
  files ≠ [] →
  inputBox ui = Some fileName →
  fileName ≠ "" →
  workspaceRoot s = Some root →
  Forall2 (readable_as disk) files contents →
  writeFile_result ui = inl tt →
  let outputPath := Path.join root (fileName +:+ ".txt") in
  let written :=
    ShowInputBox :: (ReadFile <$> files) ++
      [WriteFile outputPath (document root (zip files contents));
       ShowInformationMessage ("Generated file: " +:+ fileName +:+ ".txt")] in
  (informationAction ui ≠ Some "Open File" →
   generateFile disk ui s = mkRun (inl tt) s written []) ∧
  (informationAction ui = Some "Open File" →
   ∃ rest, trace (generateFile disk ui s)
           = written ++ OpenTextDocument outputPath :: rest).
Proof.
  intros Hfiles Hsome Hname Hne Hroot Hread Hwrite outputPath written.
  subst outputPath written.
  rewrite (generateFile_named disk ui s fileName root files); try done.
  unfold mbind, Js_bind, emit, try_catch. cbn [outcome final trace unhandled].
  rewrite (readFiles_ok disk root files contents Hread).
  cbn [outcome final trace unhandled app]. rewrite Hwrite.
  cbn [settle mret Js_ret outcome final trace unhandled app].
  split; intros Haction.
  - rewrite decide_False by done.
    cbn [mret Js_ret outcome final trace unhandled app].
    rewrite ?app_nil_r, <- ?app_assoc. reflexivity.
  - rewrite decide_True by done.
    cbn [mret Js_ret outcome final trace unhandled app].
    eexists. rewrite <- ?app_assoc. cbn [app]. reflexivity.
Qed.

(** ** The invariant of the provider *)

Lemma provider_inv_getChildren disk element s :
  provider_inv s → provider_inv (final (getChildren disk element s)).
Proof.
  intros Hinv. unfold getChildren, mbind, Js_bind, get_state.
  cbn [outcome final trace unhandled].
  destruct (workspaceRoot s) as [root |]; [| done].
  destruct element as [it_ref |].
  - unfold deref. destruct (heap s !! it_ref) as [it |]; [| done].
    cbn [outcome final trace unhandled].
    by apply provider_inv_getFilesInDirectory.
  - cbn [final]. by apply provider_inv_getFilesInDirectory.
Qed.

Lemma provider_inv_toggleCheck disk item s :
  provider_inv s → provider_inv (final (toggleCheck disk item s)).
Proof.
  intros Hinv. destruct (toggleCheck_final disk item s) as (checked & T & ->).
  by apply (provider_inv_mark checked T s).
Qed.

Lemma provider_inv_toggleAllFiles s :
  provider_inv s → provider_inv (final (toggleAllFiles s)).
Proof.
  intros Hinv. rewrite toggleAllFiles_run. cbn [final].
  by eapply (provider_inv_mark _ _ s).
Qed.

(** X12. Every method keeps the invariant of the provider: after
    [getChildren], [toggleCheck], [toggleAllFiles] or [generateFile],
    whatever their arguments and however they end, the keys of the map are
    still distinct, each key is still the path of the object it holds, and
    every checkbox still shows the checked flag of its object. *)
Theorem provider_inv_kept disk element item ui s :
  provider_inv s →
  provider_inv (final (getChildren disk element s)) ∧
  provider_inv (final (toggleCheck disk item s)) ∧
  provider_inv (final (toggleAllFiles s)) ∧
  provider_inv (final (generateFile disk ui s)).
Proof.
  intros Hinv. split; [| split; [| split]].
  - by apply provider_inv_getChildren.
  - by apply provider_inv_toggleCheck.
  - by apply provider_inv_toggleAllFiles.
  - destruct (generateFile_shape disk ui s) as (o & tr & -> & _). done.
Qed.

Lemma JsMap_elem_of_get p i (m : JsMap.t) :
  NoDup (JsMap.keys m) → (p, i) ∈ m → JsMap.get p m = Some i.
Proof.
  unfold JsMap.keys.
  induction m as [| [k v] rest IH]; [by intros _ ?%elem_of_nil |].
  cbn [fmap list_fmap fst JsMap.get].
  intros [Hfresh Hrest]%NoDup_cons [[= -> ->] | Hin]%elem_of_cons.
  - by rewrite decide_True.
  - rewrite decide_False; [by apply IH |].
    intros ->. apply Hfresh. by apply (list_elem_of_fmap_2 fst _ (p, i)).
Qed.

(** X13. On a state that satisfies the invariant, [getCheckedFiles] lists
    each path at most once, and a path is listed exactly when the object
    that the map holds for it is a checked file with that path;
    directories are never listed. *)
Theorem getCheckedFiles_exact s :
  provider_inv s →
  ∃ files,
    getCheckedFiles s = mkRun (inl files) s [] [] ∧
    NoDup files ∧
    ∀ p, p ∈ files ↔
         ∃ i it, JsMap.get p (items s) = Some i ∧
                 heap s !! i = Some it ∧
                 filePath it = p ∧
                 isChecked it = true ∧
                 collapsibleState it = None_.
Proof.
  intros (Hkeys & Hkeyed & _).
  exists (getCheckedFiles_loop (heap s) (items s)).
  split; [apply getCheckedFiles_run |]. split.
  - eapply sublist_NoDup; [exact Hkeys | apply getCheckedFiles_loop_sublist].
  - intros p. rewrite getCheckedFiles_loop_elem_of. split.
    + intros (i & it & Hin & Hit & Hc & Hkind).
      exists i, it. split; [by apply JsMap_elem_of_get |].
      destruct (Hkeyed p i Hin) as (it' & Hit' & Hpath).
      rewrite Hit in Hit'. injection Hit' as <-. done.
    + intros (i & it & Hget & Hit & _ & Hc & Hkind).
      exists i, it. split; [by apply JsMap_get_elem_of | done].
Qed.

Lemma getCheckedFiles_loop_none h (m : JsMap.t) :
  (∀ i it, i ∈ JsMap.values m → h !! i = Some it → isChecked it = false) →
  getCheckedFiles_loop h m = [].
Proof.
  unfold JsMap.values.
  induction m as [| [p item] rest IH]; intros Hnone; [done |].
  cbn [getCheckedFiles_loop].
  assert (Hrest : getCheckedFiles_loop h rest = []).
  { apply IH. intros i it Hi. apply Hnone. cbn [fmap list_fmap].
    apply elem_of_cons. by right. }
  destruct (h !! item) as [it |] eqn:Hit; [| done].
  rewrite (Hnone item it); [done | | done].
  cbn [fmap list_fmap snd]. apply elem_of_cons. by left.
Qed.

(** X14. [toggleAllFiles] decides what [getCheckedFiles] returns next,
    whatever was checked before.  When the flag becomes [true], the files
    listed are the keys of the map that hold a file item; when it becomes
    [false], no file is listed and [generateFile] only shows its
    warning. *)
Theorem toggleAllFiles_checkedFiles disk ui s :
  let r := toggleAllFiles s in
  let files := getCheckedFiles_loop (heap (final r)) (items (final r)) in
  (allChecked s = false →
   ∀ p, p ∈ files ↔
        ∃ i it, (p, i) ∈ items s ∧ heap s !! i = Some it ∧
                collapsibleState it = None_) ∧
  (allChecked s = true →
   files = [] ∧
   generateFile disk ui (final r) =
     mkRun (inl tt) (final r) [ShowWarningMessage "No files selected!"] []).
Proof.
  intros r files. subst r files. rewrite toggleAllFiles_run.
  cbn [final heap items]. split.
  - intros ->. cbn [negb]. intros p.
    rewrite getCheckedFiles_loop_elem_of. split.
    + intros (i & it' & Hin & Hit' & _ & Hkind).
      rewrite mark_lookup_in in Hit'
        by (by apply (list_elem_of_fmap_2 snd _ (p, i))).
      destruct (heap s !! i) as [it |] eqn:Hit; [| done].
      injection Hit' as <-. by exists i, it.
    + intros (i & it & Hin & Hit & Hkind).
      exists i, (setChecked true it). split; [done |]. split; [| done].
      rewrite mark_lookup_in, Hit; [done |].
      by apply (list_elem_of_fmap_2 snd _ (p, i)).
  - intros ->. cbn [negb].
    assert (Hnone : getCheckedFiles_loop
              (mark false (JsMap.values (items s)) (heap s)) (items s) = []).
    { apply getCheckedFiles_loop_none. intros i it' Hi.
      rewrite mark_lookup_in by done.
      destruct (heap s !! i) as [it |]; [| done]. by intros [= <-]. }
    split; [exact Hnone |].
    unfold generateFile. rewrite bind_eq, getCheckedFiles_run.
    cbn [outcome final trace unhandled heap items]. rewrite Hnone.
    reflexivity.
Qed.

(** ** [toggleCheck] on a directory: what it leaves alone *)

Lemma below_join dirPath name :
  ignored_name name = false → below dirPath (Path.join dirPath name).
Proof.
  intros Hname. exists [name]. split; [done |]. split; [done |].
  by constructor.
Qed.

Lemma below_deeper dirPath name p :
  ignored_name name = false → below (Path.join dirPath name) p → below dirPath p.
Proof.
  intros Hname (segs & -> & _ & Hsegs). exists (name :: segs).
  split; [unfold Path.join; by rewrite <- app_assoc |].
  split; [done | by constructor].
Qed.

Lemma Under_below node dirPath p sub : Under node dirPath p sub → below dirPath p.
Proof.
  induction 1 as [r entries dirPath name sub _ Hname
                 | r entries dirPath name t p sub _ Hname _ IH].
  - by apply below_join.
  - by eapply below_deeper.
Qed.

Lemma toggleCheck_directory_touched disk item s it :
  heap s !! item = Some it →
  collapsibleState it ≠ None_ →
  ∃ T,
    final (toggleCheck disk item s) =
      with_heap s (mark (negb (isChecked it)) (item :: T) (heap s)) ∧
    ∀ i, i ∈ T →
      ∃ p, below (filePath it) p ∧ JsMap.get p (items s) = Some i.
Proof.
  intros Hit Hkind.
  destruct (resolve disk (filePath it)) as [node |] eqn:Hres.
  - destruct (toggleCheck_directory_run disk item s it Hit Hkind)
      as (_ & _ & _ & T & Hfin & Hwalk).
    exists T. split; [exact Hfin |].
    destruct (Hwalk node Hres) as [Hsound _].
    intros i Hi. destruct (Hsound i Hi) as (p & sub & Hunder & Hget).
    exists p. split; [by eapply Under_below | done].
  - exists []. split; [| by intros i ?%elem_of_nil].
    unfold toggleCheck, mbind, Js_bind, deref. rewrite Hit.
    cbn [outcome final trace unhandled]. rewrite decide_True by done.
    unfold detach, toggleDirectoryChildrenAt.
    cbn [updateCheckState modify final filePath setChecked]. by rewrite Hres.
Qed.

(** X15. Toggling a directory item, whether or not its walk completes,
    keeps the map, the flag and the root, creates and removes no object,
    and keeps the label, path and kind of every object.  An object other
    than the item keeps its checked flag too unless the map holds it at a
    path strictly below the directory that goes through no name
    [node_modules] or [.git]. *)
Theorem toggleCheck_directory_frame disk s item it :
  heap s !! item = Some it →
  collapsibleState it ≠ None_ →
  let r := toggleCheck disk item s in
  items (final r) = items s ∧
  allChecked (final r) = allChecked s ∧
  workspaceRoot (final r) = workspaceRoot s ∧
  length (heap (final r)) = length (heap s) ∧
  (∀ i it', heap (final r) !! i = Some it' →
     ∃ it0, heap s !! i = Some it0 ∧ label it' = label it0 ∧
            filePath it' = filePath it0 ∧
            collapsibleState it' = collapsibleState it0) ∧
  (∀ i, i ≠ item →
     (∀ p, JsMap.get p (items s) = Some i → ¬ below (filePath it) p) →
     heap (final r) !! i = heap s !! i).
Proof.
  intros Hit Hkind r. subst r.
  destruct (toggleCheck_directory_touched disk item s it Hit Hkind)
    as (T & -> & Htouched).
  cbn [with_heap heap items allChecked workspaceRoot].
  split; [done | split; [done | split; [done | split; [| split]]]].
  - apply length_mark.
  - intros i it'. rewrite mark_lookup.
    destruct (heap s !! i) as [it0 |]; case_decide; try done.
    + intros [= <-]. by exists it0.
    + intros [= <-]. by exists it0.
  - intros i Hne Hout. apply mark_lookup_notin.
    intros [-> | Hi]%elem_of_cons; [done |].
    destruct (Htouched i Hi) as (p & Hbelow & Hget).
    by apply (Hout p).
Qed.

Lemma bind_trace_elem_of {A B} (m : Js A) (f : A → Js B) s eff :
  eff ∈ trace ((m ≫= f) s) →
  eff ∈ trace (m s) ∨ ∃ a, eff ∈ trace (f a (final (m s))).
Proof.
  unfold mbind, Js_bind.
  destruct (outcome (m s)) as [a | e]; cbn [trace]; [| by left].
  intros [? | ?]%elem_of_app; [by left | right; by exists a].
Qed.

Lemma toggleEntries_trace entries dirPath checked :
  Forall (λ e, ∀ q s eff,
    eff ∈ trace (toggleDirectoryChildren e.2 q checked s) →
    ∃ p, eff = ReadDir p ∧ (p = q ∨ below q p)) entries →
  ∀ s eff, eff ∈ trace (toggleEntries dirPath checked entries s) →
           ∃ p, eff = ReadDir p ∧ below dirPath p.
Proof.
  induction 1 as [| [name t] rest Ht _ IH]; intros s eff.
  - by intros ?%elem_of_nil.
  - cbn [toggleEntries]. destruct (ignored_name name) eqn:Hname; [apply IH |].
    intros [Hget | [s0 Heff]]%bind_trace_elem_of;
      [by apply elem_of_nil in Hget |].
    apply bind_trace_elem_of in Heff as [Hupd | [_ Heff]].
    { destruct (JsMap.get (Path.join dirPath name) (items s0));
        by apply elem_of_nil in Hupd. }
    apply bind_trace_elem_of in Heff as [Hrec | [_ Heff]]; [| by eapply IH].
    destruct (isDirectory t); [| by apply elem_of_nil in Hrec].
    apply Ht in Hrec as (p & -> & [-> | Hp]); eexists; (split; [done |]).
    + by apply below_join.
    + by eapply below_deeper.
Qed.

Lemma toggleDirectoryChildren_trace node :
  ∀ dirPath checked s eff,
    eff ∈ trace (toggleDirectoryChildren node dirPath checked s) →
    ∃ p, eff = ReadDir p ∧ (p = dirPath ∨ below dirPath p).
Proof.
  induction node as [r content | r entries IH] using FsTree_nested_ind;
    intros dirPath checked s eff.
  - cbn. intros ->%list_elem_of_singleton. eauto.
  - destruct r.
    + rewrite toggleDirectoryChildren_dir.
      intros [->%list_elem_of_singleton | [_ Heff]]%bind_trace_elem_of; [eauto |].
      destruct (toggleEntries_trace entries dirPath checked) with (s := s) (eff := eff)
        as (p & -> & Hp); [| done | eauto].
      eapply Forall_impl; [exact IH |]. intros e He q s' eff'. apply He.
    + cbn. intros ->%list_elem_of_singleton. eauto.
Qed.

(** X16. The only calls that [toggleCheck] makes to the host are the
    refresh of the view and [readdir]; the directories it lists are the
    one of the item and directories strictly below it reached through no
    name [node_modules] or [.git].  It reads no file, writes nothing and
    shows no message. *)
Theorem toggleCheck_trace disk s item it :
  heap s !! item = Some it →
  ∀ eff, eff ∈ trace (toggleCheck disk item s) →
    eff = Refresh ∨
    ∃ p, eff = ReadDir p ∧ (p = filePath it ∨ below (filePath it) p).
Proof.
  intros Hit eff.
  destruct (decide (collapsibleState it = None_)) as [Hkind | Hkind].
  - rewrite (toggleCheck_file_run disk item s it Hit Hkind). cbn [trace].
    intros ->%list_elem_of_singleton. by left.
  - destruct (toggleCheck_directory_run disk item s it Hit Hkind)
      as (_ & _ & -> & _).
    intros [-> | Heff]%elem_of_cons; [by left |]. right.
    unfold toggleDirectoryChildrenAt in Heff.
    destruct (resolve disk (filePath it)) as [node |].
    + by eapply toggleDirectoryChildren_trace.
    + cbn in Heff. apply list_elem_of_singleton in Heff as ->. eauto.
Qed.

(** X17. A toggle survives the next listing.  When the map holds an item
    at the path of an entry, toggling the item and then listing the
    directory of the entry, where the entry is the [j]-th one listed,
    returns at position [j] an item that did not exist before the listing,
    has the path of the entry, and has the toggled checked flag. *)
Theorem toggleCheck_then_expand disk disk' s item it dirPath name node j entries :
  refs_valid s →
  heap s !! item = Some it →
  JsMap.get (Path.join dirPath name) (items s) = Some item →
  readdir_node (resolve disk' dirPath) dirPath = inl entries →
  List.filter listed entries !! j = Some (name, node) →
  let r := toggleCheck disk item s in
  let e := getFilesInDirectory disk' dirPath (final r) in
  ∃ refs i it',
    outcome e = inl refs ∧
    refs !! j = Some i ∧
    heap (final r) !! i = None ∧
    heap (final e) !! i = Some it' ∧
    filePath it' = Path.join dirPath name ∧
    isChecked it' = negb (isChecked it).
Proof.
  intros Hvalid Hit Hget Hdir Hentry r e.
  pose proof (refs_valid_toggleCheck disk item s it Hit Hvalid) as Hvalid'.
  pose proof (toggleCheck_item disk item s it Hit) as Hitem.
  destruct (toggleCheck_final disk item s) as (checked & T & Hfin).
  fold r in Hvalid', Hitem, Hfin.
  assert (Hknown : knownChecked (final r) (Path.join dirPath name)
                   = negb (isChecked it)).
  { unfold knownChecked. rewrite Hfin at 1. cbn [with_heap items].
    by rewrite Hget, Hitem. }
  destruct (getFilesInDirectory_run disk' dirPath (final r) entries Hvalid' Hdir)
    as (refs & new & Hout & _ & _ & _ & _ & _ & _ & _ & Hall).
  destruct (getFilesInDirectory_closed disk' dirPath (final r) entries Hdir)
    as (Hseq & _).
  fold e in Hout, Hall, Hseq.
  assert (Hrefs : refs = seq (length (heap (final r)))
                           (length (List.filter listed entries))) by congruence.
  destruct (lookup_lt_is_Some_2 refs j) as [i Hi].
  { rewrite <- (Forall2_length _ _ _ Hall). by eapply lookup_lt_Some. }
  pose proof (Forall2_lookup_lr _ _ _ _ _ _ Hall Hentry Hi) as Hnew.
  cbn beta in Hnew. cbn [fst snd] in Hnew. rewrite Hknown in Hnew.
  eexists refs, i, _.
  split; [exact Hout |]. split; [exact Hi |]. split; [| split; [exact Hnew | done]].
  apply lookup_ge_None. rewrite Hrefs in Hi.
  apply lookup_seq in Hi as [-> _]. lia.
Qed.

Lemma mark_fixed checked T h :
  (∀ i it, i ∈ T → h !! i = Some it → setChecked checked it = it) →
  mark checked T h = h.
Proof.
  revert h. induction T as [| j T IH]; intros h Hfixed; [done |].
  rewrite mark_cons.
  assert (Hj : alter (setChecked checked) j h = h).
  { apply list_eq. intros i. destruct (decide (j = i)) as [<- | Hne].
    - rewrite list_lookup_alter_eq.
      destruct (h !! j) as [it |] eqn:Hit; [| done]. cbn.
      f_equal. apply (Hfixed j); [apply elem_of_cons; by left | done].
    - by rewrite list_lookup_alter_ne. }
  rewrite Hj. apply IH. intros i it Hi. apply Hfixed. apply elem_of_cons. by right.
Qed.

(** X18. The flag of [toggleAllFiles] records the last direction, not the
    selection.  When the flag is [false] and every item of the map is
    already checked, the call announces that all files are selected and
    flips the flag, and no object changes. *)
Theorem toggleAllFiles_already_checked s :
  provider_inv s →
  allChecked s = false →
  (∀ i it, i ∈ JsMap.values (items s) → heap s !! i = Some it → isChecked it = true) →
  toggleAllFiles s =
    mkRun (inl tt)
      {| heap := heap s; items := items s;
         allChecked := true; workspaceRoot := workspaceRoot s |}
      [Refresh; ShowInformationMessage "All files selected"] [].
Proof.
  intros (_ & _ & Hbox) Hflag Hall.
  rewrite toggleAllFiles_run, Hflag. cbn [negb].
  rewrite mark_fixed; [done |].
  intros i it Hi Hit. specialize (Hall i it Hi Hit). specialize (Hbox i it Hit).
  destruct it as [l k p c v b]. cbn in *. subst c. by rewrite Hbox.
Qed.

(** ** The further properties on the concrete disks *)

Lemma provider_inv_demo_expanded : provider_inv demo_expanded.
Proof.
  unfold demo_expanded, demo_listed.
  apply provider_inv_getChildren, provider_inv_getChildren, provider_inv_newProvider.
Qed.

Lemma provider_inv_demo_checked : provider_inv demo_checked.
Proof.
  unfold demo_checked.
  apply provider_inv_toggleCheck, provider_inv_toggleCheck, provider_inv_demo_expanded.
Qed.

Lemma demo_entries_NoDup :
  NoDup [("a.txt", FsFile true "X");
         ("sub", FsDir true [("b.txt", FsFile true "Y")]);
         ("node_modules", FsDir true [("ignored.txt", FsFile true "I")])].*1.
Proof. compute_done. Qed.

Lemma getChildren_unreadable_witness :
  let dirPath := ["ws"; "sub"; "locked"] in
  let e := FsError EACCES "scandir" dirPath in
  (workspaceRoot locked_expanded = Some demo_root ∧
   filePath <$> heap locked_expanded !! 2 = Some dirPath ∧
   readdir_node (resolve locked_disk dirPath) dirPath = inr e) ∧
  getChildren locked_disk (Some 2) locked_expanded =
    mkRun (inr e) locked_expanded [ReadDir dirPath] [].
Proof.
  intros dirPath e. split; [repeat split |].
  exact (getChildren_unreadable locked_disk (Some 2) locked_expanded demo_root
           dirPath e eq_refl eq_refl eq_refl).
Defined.

Lemma getFilesInDirectory_registers_witness :
  let s := newProvider (Some demo_root) in
  let entries :=
    [("a.txt", FsFile true "X");
     ("sub", FsDir true [("b.txt", FsFile true "Y")]);
     ("node_modules", FsDir true [("ignored.txt", FsFile true "I")])] in
  let r := getFilesInDirectory demo_disk demo_root s in
  (NoDup entries.*1 ∧
   readdir_node (resolve demo_disk demo_root) demo_root = inl entries) ∧
  ∃ refs,
    outcome r = inl refs ∧
    length refs = length (List.filter listed entries) ∧
    ∀ j e i,
      List.filter listed entries !! j = Some e →
      refs !! j = Some i →
      JsMap.get (Path.join demo_root e.1) (items (final r)) = Some i.
Proof.
  intros s entries r. split; [split; [exact demo_entries_NoDup | reflexivity] |].
  exact (getFilesInDirectory_registers demo_disk demo_root s entries
           demo_entries_NoDup eq_refl).
Defined.

Lemma getFilesInDirectory_map_frame_witness :
  let entries := [("b.txt", FsFile true "Y")] in
  let dirPath := ["ws"; "sub"] in
  let r := getFilesInDirectory demo_disk dirPath demo_listed in
  readdir_node (resolve demo_disk dirPath) dirPath = inl entries ∧
  JsMap.keys (items demo_listed) `prefix_of` JsMap.keys (items (final r)) ∧
  JsMap.get ["ws"; "a.txt"] (items (final r)) = JsMap.get ["ws"; "a.txt"] (items demo_listed).
Proof.
  intros entries dirPath r. split; [reflexivity |].
  destruct (getFilesInDirectory_map_frame demo_disk dirPath demo_listed entries eq_refl)
    as (Hprefix & _ & Hother).
  split; [exact Hprefix |].
  apply Hother. compute_done.
Defined.

Lemma getFilesInDirectory_allocates_witness :
  let entries := [("b.txt", FsFile true "Y")] in
  let dirPath := ["ws"; "sub"] in
  let r := getFilesInDirectory demo_disk dirPath demo_listed in
  readdir_node (resolve demo_disk dirPath) dirPath = inl entries ∧
  trace r = [ReadDir dirPath] ∧
  (∀ i it, heap demo_listed !! i = Some it → heap (final r) !! i = Some it) ∧
  ∃ refs,
    outcome r = inl refs ∧
    NoDup refs ∧
    length (heap (final r)) =
      length (heap demo_listed) + length (List.filter listed entries) ∧
    (∀ i, i ∈ refs → heap demo_listed !! i = None) ∧
    Forall2 (λ e i, ∃ it,
        heap (final r) !! i = Some it ∧
        label it = e.1 ∧
        filePath it = Path.join dirPath e.1 ∧
        collapsibleState it = kind_of e.2)
      (List.filter listed entries) refs.
Proof.
  intros entries dirPath r. split; [reflexivity |].
  exact (getFilesInDirectory_allocates demo_disk dirPath demo_listed entries eq_refl).
Defined.

Lemma getFilesInDirectory_supersedes_witness :
  let entries := [("b.txt", FsFile true "Y")] in
  let dirPath := ["ws"; "sub"] in
  let r1 := getFilesInDirectory demo_disk dirPath demo_listed in
  let r2 := getFilesInDirectory demo_disk dirPath (final r1) in
  (refs_valid demo_listed ∧ keys_unique demo_listed ∧
   readdir_node (resolve demo_disk dirPath) dirPath = inl entries) ∧
  ∃ refs1,
    outcome r1 = inl refs1 ∧
    length refs1 = length (List.filter listed entries) ∧
    ∀ i, i ∈ refs1 → i ∉ JsMap.values (items (final r2)).
Proof.
  intros entries dirPath r1 r2.
  assert (Hinv : provider_inv demo_listed).
  { apply provider_inv_getChildren, provider_inv_newProvider. }
  pose proof (provider_inv_refs_valid _ Hinv) as Hvalid.
  destruct Hinv as (Hkeys & _).
  split; [repeat split; assumption |].
  exact (getFilesInDirectory_supersedes demo_disk dirPath demo_listed entries
           Hvalid Hkeys eq_refl).
Defined.

Lemma toggleCheck_stale_file_ignored_witness :
  let it := newFileItem "b.txt" None_ ["ws"; "sub"; "b.txt"] false in
  let r := toggleCheck demo_disk 2 demo_reexpanded in
  (heap demo_reexpanded !! 2 = Some it ∧
   collapsibleState it = None_ ∧
   2 ∉ JsMap.values (items demo_reexpanded)) ∧
  outcome (getCheckedFiles (final r)) = outcome (getCheckedFiles demo_reexpanded).
Proof.
  intros it r.
  assert (Hstale : 2 ∉ JsMap.values (items demo_reexpanded)).
  { compute_done. }
  split; [repeat split; exact Hstale |].
  exact (proj1 (toggleCheck_stale_file_ignored demo_disk demo_reexpanded 2 it
                  eq_refl eq_refl Hstale)).
Defined.

Lemma toggleCheck_file_checkedFiles_witness :
  let it := newFileItem "a.txt" None_ ["ws"; "a.txt"] false in
  let r := toggleCheck demo_disk 0 demo_expanded in
  (provider_inv demo_expanded ∧
   heap demo_expanded !! 0 = Some it ∧
   collapsibleState it = None_ ∧
   JsMap.get (filePath it) (items demo_expanded) = Some 0) ∧
  filePath it ∈ getCheckedFiles_loop (heap (final r)) (items (final r)).
Proof.
  intros it r.
  split; [repeat split; apply provider_inv_demo_expanded |].
  destruct (toggleCheck_file_checkedFiles demo_disk demo_expanded 0 it
              provider_inv_demo_expanded eq_refl eq_refl eq_refl) as [Hpath _].
  apply Hpath. reflexivity.
Defined.

Lemma generateFile_cancelled_witness :
  let ui := mkUi None (inl tt) None in
  (outcome (getCheckedFiles demo_checked) ≠ inl [] ∧
   (inputBox ui = None ∨ inputBox ui = Some "")) ∧
  generateFile demo_disk ui demo_checked = mkRun (inl tt) demo_checked [ShowInputBox] [].
Proof.
  intros ui.
  assert (Hsome : outcome (getCheckedFiles demo_checked) ≠ inl []) by discriminate.
  split; [split; [exact Hsome | by left] |].
  exact (generateFile_cancelled demo_disk ui demo_checked Hsome (or_introl eq_refl)).
Defined.

Lemma generateFile_write_failure_witness :
  let err := FsError EACCES "open" ["ws"; "out.txt"] in
  let ui := mkUi (Some "out") (inr err) None in
  let files := [["ws"; "a.txt"]; ["ws"; "sub"; "b.txt"]] in
  (outcome (getCheckedFiles demo_checked) = inl files ∧
   files ≠ [] ∧
   inputBox ui = Some "out" ∧
   "out" ≠ "" ∧
   workspaceRoot demo_checked = Some demo_root ∧
   Forall2 (readable_as demo_disk) files ["X"; "Y"] ∧
   writeFile_result ui = inr err) ∧
  generateFile demo_disk ui demo_checked =
    mkRun (inl tt) demo_checked
      (ShowInputBox :: (ReadFile <$> files) ++
         [WriteFile (Path.join demo_root ("out" +:+ ".txt"))
            (document demo_root (zip files ["X"; "Y"]));
          ShowErrorMessage ("Error generating file: " +:+ message err)])
      [].
Proof.
  intros err ui files.
  assert (Hname : "out" ≠ "") by discriminate.
  assert (Hsome : files ≠ []) by discriminate.
  assert (Hread : Forall2 (readable_as demo_disk) files ["X"; "Y"]).
  { constructor; [reflexivity |]. constructor; [reflexivity | constructor]. }
  split; [repeat split; try reflexivity; assumption |].
  exact (generateFile_write_failure demo_disk ui demo_checked "out" demo_root files
           ["X"; "Y"] err eq_refl Hsome eq_refl Hname eq_refl Hread eq_refl).
Defined.

Lemma generateFile_success_witness :
  let ui := mkUi (Some "out") (inl tt) None in
  let files := [["ws"; "a.txt"]; ["ws"; "sub"; "b.txt"]] in
  let outputPath := Path.join demo_root ("out" +:+ ".txt") in
  (outcome (getCheckedFiles demo_checked) = inl files ∧
   files ≠ [] ∧
   inputBox ui = Some "out" ∧
   "out" ≠ "" ∧
   workspaceRoot demo_checked = Some demo_root ∧
   Forall2 (readable_as demo_disk) files ["X"; "Y"] ∧
   writeFile_result ui = inl tt ∧
   informationAction ui ≠ Some "Open File") ∧
  generateFile demo_disk ui demo_checked =
    mkRun (inl tt) demo_checked
      (ShowInputBox :: (ReadFile <$> files) ++
         [WriteFile outputPath (document demo_root (zip files ["X"; "Y"]));
          ShowInformationMessage ("Generated file: " +:+ "out" +:+ ".txt")])
      [].
Proof.
  intros ui files outputPath.
  assert (Hname : "out" ≠ "") by discriminate.
  assert (Hsome : files ≠ []) by discriminate.
  assert (Haction : informationAction ui ≠ Some "Open File") by discriminate.
  assert (Hread : Forall2 (readable_as demo_disk) files ["X"; "Y"]).
  { constructor; [reflexivity |]. constructor; [reflexivity | constructor]. }
  split; [repeat split; try reflexivity; assumption |].
  exact (proj1 (generateFile_success demo_disk ui demo_checked "out" demo_root files
                  ["X"; "Y"] eq_refl Hsome eq_refl Hname eq_refl Hread eq_refl)
           Haction).
Defined.

Lemma provider_inv_kept_witness :
  let ui := mkUi (Some "out") (inl tt) None in
  provider_inv demo_expanded ∧
  provider_inv (final (getChildren demo_disk (Some 1) demo_expanded)) ∧
  provider_inv (final (toggleCheck demo_disk 1 demo_expanded)) ∧
  provider_inv (final (toggleAllFiles demo_expanded)) ∧
  provider_inv (final (generateFile demo_disk ui demo_expanded)).
Proof.
  intros ui. split; [apply provider_inv_demo_expanded |].
  exact (provider_inv_kept demo_disk (Some 1) 1 ui demo_expanded
           provider_inv_demo_expanded).
Defined.

Lemma getCheckedFiles_exact_witness :
  provider_inv demo_checked ∧
  ∃ files,
    getCheckedFiles demo_checked = mkRun (inl files) demo_checked [] [] ∧
    NoDup files ∧
    ∀ p, p ∈ files ↔
         ∃ i it, JsMap.get p (items demo_checked) = Some i ∧
                 heap demo_checked !! i = Some it ∧
                 filePath it = p ∧
                 isChecked it = true ∧
                 collapsibleState it = None_.
Proof.
  split; [apply provider_inv_demo_checked |].
  exact (getCheckedFiles_exact demo_checked provider_inv_demo_checked).
Defined.

Lemma toggleCheck_directory_frame_witness :
  let it := newFileItem "sub" Collapsed ["ws"; "sub"] false in
  let r := toggleCheck demo_disk 1 demo_expanded in
  (heap demo_expanded !! 1 = Some it ∧ collapsibleState it ≠ None_) ∧
  items (final r) = items demo_expanded ∧
  length (heap (final r)) = length (heap demo_expanded).
Proof.
  intros it r.
  assert (Hkind : collapsibleState it ≠ None_) by discriminate.
  split; [split; [reflexivity | exact Hkind] |].
  destruct (toggleCheck_directory_frame demo_disk demo_expanded 1 it eq_refl Hkind)
    as (Hitems & _ & _ & Hlen & _).
  exact (conj Hitems Hlen).
Defined.

Lemma toggleCheck_trace_witness :
  let it := newFileItem "sub" Collapsed ["ws"; "sub"] false in
  heap demo_expanded !! 1 = Some it ∧
  ∀ eff, eff ∈ trace (toggleCheck demo_disk 1 demo_expanded) →
    eff = Refresh ∨
    ∃ p, eff = ReadDir p ∧ (p = filePath it ∨ below (filePath it) p).
Proof.
  intros it. split; [reflexivity |].
  exact (toggleCheck_trace demo_disk demo_expanded 1 it eq_refl).
Defined.

Lemma toggleCheck_then_expand_witness :
  let it := newFileItem "b.txt" None_ ["ws"; "sub"; "b.txt"] false in
  let entries := [("b.txt", FsFile true "Y")] in
  let dirPath := ["ws"; "sub"] in
  let r := toggleCheck demo_disk 2 demo_expanded in
  let e := getFilesInDirectory demo_disk dirPath (final r) in
  (refs_valid demo_expanded ∧
   heap demo_expanded !! 2 = Some it ∧
   JsMap.get (Path.join dirPath "b.txt") (items demo_expanded) = Some 2 ∧
   readdir_node (resolve demo_disk dirPath) dirPath = inl entries ∧
   List.filter listed entries !! 0 = Some ("b.txt", FsFile true "Y")) ∧
  ∃ refs i it',
    outcome e = inl refs ∧
    refs !! 0 = Some i ∧
    heap (final r) !! i = None ∧
    heap (final e) !! i = Some it' ∧
    filePath it' = Path.join dirPath "b.txt" ∧
    isChecked it' = negb (isChecked it).
Proof.
  intros it entries dirPath r e.
  pose proof (provider_inv_refs_valid _ provider_inv_demo_expanded) as Hvalid.
  split; [repeat split; exact Hvalid |].
  exact (toggleCheck_then_expand demo_disk demo_disk demo_expanded 2 it dirPath
           "b.txt" (FsFile true "Y") 0 entries Hvalid eq_refl eq_refl eq_refl eq_refl).
Defined.

Lemma toggleAllFiles_already_checked_witness :
  (provider_inv demo_checked ∧
   allChecked demo_checked = false ∧
   (∀ i it, i ∈ JsMap.values (items demo_checked) →
            heap demo_checked !! i = Some it → isChecked it = true)) ∧
  toggleAllFiles demo_checked =
    mkRun (inl tt)
      {| heap := heap demo_checked; items := items demo_checked;
         allChecked := true; workspaceRoot := workspaceRoot demo_checked |}
      [Refresh; ShowInformationMessage "All files selected"] [].
Proof.
  assert (Hall : ∀ i it, i ∈ JsMap.values (items demo_checked) →
                   heap demo_checked !! i = Some it → isChecked it = true).
  { intros i it _.
    destruct i as [| [| [| i]]]; intros [= <-]; reflexivity. }
  split; [split; [apply provider_inv_demo_checked | split; [reflexivity | exact Hall]] |].
  exact (toggleAllFiles_already_checked demo_checked provider_inv_demo_checked
           eq_refl Hall).
Defined.
